(** * Active-recall quiz: phase controller, selection set and scorer

    A shallow embedding of [src/components/ActiveRecallApp.tsx]: the word
    tables, the React state cells of [ActiveRecallApp] with their setters
    and effects, the handlers [toggleWord], [submit], [goHome], the
    countdown, and the shuffled recall grid.

    JavaScript numbers are IEEE-754 doubles; they are kept as Rocq's
    primitive floats wherever the source computes with [/], [*] or
    [Math.round].  Array lengths and [Set.size], which are always natural
    numbers, are [nat].  A [Set<string>] is a [gset string].

    The repository holds an earlier copy of the component with the same
    handlers; it differs in [STUDY_TIME] (30) and in two skip buttons.  The
    constants below are those of the current component, and the skip
    buttons are kept as an event of their own so that what is proved of
    every reachable state covers both copies. *)

From Stdlib Require Import ZArith Floats.PrimFloat Floats.FloatOps Floats.SpecFloat.
From Stdlib Require Uint63.
From stdpp Require Import gmap strings list sorting.
From stdpp Require Import pretty list_numbers.

Local Open Scope string_scope.
Local Open Scope nat_scope.

(** ** JavaScript numbers *)

Module JS.

(** The double holding a natural number (an array length). *)
Definition of_nat (n : nat) : float :=
  PrimFloat.of_uint63 (Uint63.of_Z (Z.of_nat n)).

(** The double holding a small integer, with its sign. *)
Definition of_Z (z : Z) : float :=
  if (z <? 0)%Z then PrimFloat.opp (PrimFloat.of_uint63 (Uint63.of_Z (- z)))
  else PrimFloat.of_uint63 (Uint63.of_Z z).

(** [Math.round x]: the integer nearest to [x], a tie going towards
    plus infinity, that is the floor of [x + 1/2] taken exactly.  A
    finite double is [m * 2^e]; with [e >= 0] it is an integer already.
    NaN and the infinities are returned as they are, and a negative
    argument that rounds to zero gives minus zero. *)
Definition Math_round (x : float) : float :=
  match Prim2SF x with
  | S754_finite sg m e =>
      if (0 <=? e)%Z then x
      else
        let n := if sg then Z.neg m else Z.pos m in
        let r := ((2 * n + 2 ^ (- e)) / 2 ^ (1 - e))%Z in
        if sg then PrimFloat.opp (PrimFloat.of_uint63 (Uint63.of_Z (- r)))
        else PrimFloat.of_uint63 (Uint63.of_Z r)
  | _ => x
  end.

(** Round-half-up of the exact fraction [100 * k / n], on integers. *)
Definition round_half_up_percent (k n : nat) : Z :=
  ((200 * Z.of_nat k + Z.of_nat n) / (2 * Z.of_nat n))%Z.

End JS.

(** ** Data *)

Record Word := { word : string; lang : string; pos : nat }.

Definition WORDS : list Word :=
  [ {| word := "Apple";   lang := "EN"; pos := 1 |};
    {| word := "Hund";    lang := "SV"; pos := 2 |};
    {| word := "Memory";  lang := "EN"; pos := 3 |};
    {| word := "Blå";     lang := "SV"; pos := 4 |};
    {| word := "River";   lang := "EN"; pos := 5 |};
    {| word := "Stjärna"; lang := "SV"; pos := 6 |};
    {| word := "Garden";  lang := "EN"; pos := 7 |};
    {| word := "Flicka";  lang := "SV"; pos := 8 |};
    {| word := "Thunder"; lang := "EN"; pos := 9 |};
    {| word := "Skog";    lang := "SV"; pos := 10 |};
    {| word := "Candle";  lang := "EN"; pos := 11 |};
    {| word := "Snö";     lang := "SV"; pos := 12 |};
    {| word := "Journey"; lang := "EN"; pos := 13 |};
    {| word := "Fågel";   lang := "SV"; pos := 14 |};
    {| word := "Horizon"; lang := "EN"; pos := 15 |} ].

(** A decoy has no [pos]. *)
Record Decoy := { d_word : string; d_lang : string }.

Definition FALSE_POSITIVES : list Decoy :=
  [ {| d_word := "Forest";  d_lang := "EN" |};
    {| d_word := "Lampa";   d_lang := "SV" |};
    {| d_word := "Ocean";   d_lang := "EN" |};
    {| d_word := "Kärlekn"; d_lang := "SV" |};
    {| d_word := "Shadow";  d_lang := "EN" |};
    {| d_word := "Träd";    d_lang := "SV" |};
    {| d_word := "Flame";   d_lang := "EN" |};
    {| d_word := "Himmel";  d_lang := "SV" |};
    {| d_word := "Pebble";  d_lang := "EN" |};
    {| d_word := "Natt";    d_lang := "SV" |} ].

Definition STUDY_TIME : Z := 40.
Definition DISTRACT_TIME : Z := 300.

Record CurvePoint := { label : string; retention : Z }.

Definition EBBINGHAUS : list CurvePoint :=
  [ {| label := "0 min";  retention := 100 |};
    {| label := "5 min";  retention := 58 |};
    {| label := "20 min"; retention := 44 |};
    {| label := "1 hr";   retention := 36 |};
    {| label := "1 day";  retention := 28 |};
    {| label := "1 wk";   retention := 23 |} ].

(** ** Types *)

Inductive Phase := Intro | Study | Distract | Recall | Results.

#[global] Instance Phase_eq_dec : EqDecision Phase.
Proof. solve_decision. Defined.

(** [interface WordItem]: [pos] is optional. *)
Record WordItem :=
  { wi_word : string; wi_lang : string; wi_pos : option nat; isTarget : bool }.

Record MatchedWord :=
  { m_word : string; m_lang : string; m_pos : nat; recalled : bool }.

Record ForgettingPoint :=
  { f_label : string; f_retention : Z; audience : option float }.

Record Scores :=
  { matched : list MatchedWord;
    enRate : float;
    svRate : float;
    total : nat;
    forgetting : list ForgettingPoint;
    audienceRet : float;
    falsePosCount : nat }.

(** ** The scorer: the body of [submit] up to its [setScores] call *)

Definition computeScores (selected : gset string) : Scores :=
  let targets := word <$> WORDS in
  let matched :=
    (λ w, {| m_word := word w; m_lang := lang w; m_pos := pos w;
             recalled := bool_decide (word w ∈ selected) |}) <$> WORDS in
  let falsePosCount :=
    length (filter (λ w, w ∉ targets) (elements selected)) in
  let en := filter (λ w, m_lang w = "EN") matched in
  let sv := filter (λ w, m_lang w = "SV") matched in
  let enRate :=
    JS.Math_round
      (PrimFloat.mul
         (PrimFloat.div (JS.of_nat (length (filter (λ w, recalled w) en)))
                        (JS.of_nat (length en)))
         (JS.of_nat 100)) in
  let svRate :=
    JS.Math_round
      (PrimFloat.mul
         (PrimFloat.div (JS.of_nat (length (filter (λ w, recalled w) sv)))
                        (JS.of_nat (length sv)))
         (JS.of_nat 100)) in
  let total := length (filter (λ w, recalled w) matched) in
  let audienceRet :=
    JS.Math_round
      (PrimFloat.mul
         (PrimFloat.div (JS.of_nat total) (JS.of_nat (length WORDS)))
         (JS.of_nat 100)) in
  let forgetting :=
    imap (λ i pt, {| f_label := label pt; f_retention := retention pt;
                     audience := if decide (i = 1) then Some audienceRet
                                 else None |}) EBBINGHAUS in
  {| matched := matched; enRate := enRate; svRate := svRate; total := total;
     forgetting := forgetting; audienceRet := audienceRet;
     falsePosCount := falsePosCount |}.

(** ** The recall grid

    [shuffle] is [[...arr].sort(() => Math.random() - 0.5)].  The sort is
    the engine's [Array.prototype.sort], which the repository does not
    define.  It is embedded as V8 (Node, Chrome) runs it on an array of
    fewer than 64 elements, none of them [undefined]: the array is one run
    of its TimSort, so the sort is [CountAndMakeRun] on the whole array
    followed by [BinaryInsertionSort] of the elements after the run, and
    there is nothing to merge.  The grid has 25 elements.

    The comparator ignores its two arguments and draws a fresh
    [Math.random()]: [random n] is the result of the [n]-th draw, and the
    number of draws made so far is threaded through the sort. *)

Section Shuffle.
Context {T : Type}.
Variable random : nat → float.

Definition comparefn (calls : nat) : float :=
  PrimFloat.sub (random calls) (PrimFloat.div (JS.of_nat 1) (JS.of_nat 2)).

(** [sortState.Compare]: the number the comparator returns, NaN read as
    0. *)
Definition Compare (calls : nat) : float :=
  let v := comparefn calls in
  if PrimFloat.is_nan v then JS.of_nat 0 else v.

(** The loop of [CountAndMakeRun] over the elements from the third on:
    how many of them join the run before the order breaks. *)
Fixpoint extend_run (isDescending : bool) (rest : list T) (calls : nat)
    : nat * nat :=
  match rest with
  | [] => (0, calls)
  | _ :: rest' =>
      let order := Compare calls in
      if (if isDescending then PrimFloat.leb (JS.of_nat 0) order
          else PrimFloat.ltb order (JS.of_nat 0))
      then (0, S calls)
      else let '(n, c) := extend_run isDescending rest' (S calls) in (S n, c)
  end.

(** [CountAndMakeRun(0, length)]: the first comparison decides whether
    the run descends; a descending run is reversed in place.  The result
    is the array, the length of the run and the draws made. *)
Definition CountAndMakeRun (arr : list T) (calls : nat) : list T * nat * nat :=
  match arr with
  | _ :: _ :: rest =>
      let order := Compare calls in
      let isDescending := PrimFloat.ltb order (JS.of_nat 0) in
      let '(n, c) := extend_run isDescending rest (S calls) in
      let runLength := 2 + n in
      (if isDescending
       then (reverse (take runLength arr) ++ drop runLength arr)%list
       else arr,
       runLength, c)
  | _ => (arr, length arr, calls)
  end.

(** The binary search of [BinaryInsertionSort]:
    [while (left < right) { mid = left + ((right - left) >> 1); ... }].
    Each round narrows the interval, so [right - left] rounds are
    enough. *)
Fixpoint find_slot (fuel left right calls : nat) : nat * nat * nat :=
  match fuel with
  | 0 => (left, right, calls)
  | S fuel' =>
      if decide (left < right)%nat then
        let mid := (left + Nat.div2 (right - left))%nat in
        if PrimFloat.ltb (Compare calls) (JS.of_nat 0)
        then find_slot fuel' left mid (S calls)
        else find_slot fuel' (mid + 1)%nat right (S calls)
      else (left, right, calls)
  end.

(** [BinaryInsertionSort(0, start, length)]: [sorted] is the part of the
    array before [start]; each later element is the pivot in turn and is
    moved to the slot the binary search finds in [sorted]. *)
Fixpoint BinaryInsertionSort (sorted rest : list T) (calls : nat)
    : list T * nat :=
  match rest with
  | [] => (sorted, calls)
  | pivot :: rest' =>
      let '(slot, _, c) := find_slot (length sorted) 0 (length sorted) calls in
      BinaryInsertionSort (take slot sorted ++ pivot :: drop slot sorted)%list
        rest' c
  end.

(** The sort, with the number of draws it made.  An array of fewer than
    two elements is returned without a comparison. *)
Definition ArrayTimSort (arr : list T) : list T * nat :=
  if decide (length arr < 2)%nat then (arr, 0)
  else
    let '(arr1, runLength, c) := CountAndMakeRun arr 0 in
    BinaryInsertionSort (take runLength arr1) (drop runLength arr1) c.

Definition shuffle (arr : list T) : list T := (ArrayTimSort arr).1.
End Shuffle.

Definition target_item (w : Word) : WordItem :=
  {| wi_word := word w; wi_lang := lang w; wi_pos := Some (pos w);
     isTarget := true |}.

Definition decoy_item (w : Decoy) : WordItem :=
  {| wi_word := d_word w; wi_lang := d_lang w; wi_pos := None;
     isTarget := false |}.

(** The array handed to [shuffle] inside [useMemo]. *)
Definition grid_items : list WordItem :=
  (target_item <$> WORDS) ++ (decoy_item <$> FALSE_POSITIVES).

Definition grid (random : nat → float) : list WordItem :=
  shuffle random grid_items.

(** ** The state cells of [ActiveRecallApp] *)

Record State :=
  { phase : Phase;
    timer : Z;
    selected : gset string;
    submitted : bool;
    scores : option Scores }.

(** The five [useState] initial values. *)
Definition initial_state : State :=
  {| phase := Intro; timer := 0; selected := ∅; submitted := false;
     scores := None |}.

Definition setTimer (f : Z → Z) (s : State) : State :=
  {| phase := phase s; timer := f (timer s); selected := selected s;
     submitted := submitted s; scores := scores s |}.

Definition setSelected (f : gset string → gset string) (s : State) : State :=
  {| phase := phase s; timer := timer s; selected := f (selected s);
     submitted := submitted s; scores := scores s |}.

Definition setSubmitted (b : bool) (s : State) : State :=
  {| phase := phase s; timer := timer s; selected := selected s;
     submitted := b; scores := scores s |}.

Definition setScores (sc : option Scores) (s : State) : State :=
  {| phase := phase s; timer := timer s; selected := selected s;
     submitted := submitted s; scores := sc |}.

(** The effect with dependency [[phase]]: it reloads the countdown. *)
Definition phase_effect (s : State) : State :=
  match phase s with
  | Study => setTimer (λ _, STUDY_TIME) s
  | Distract => setTimer (λ _, DISTRACT_TIME) s
  | _ => s
  end.

(** [setPhase p]: storing the value the cell already holds changes
    nothing; a new value is stored and the [[phase]] effect runs before
    any timeout can fire. *)
Definition setPhase (p : Phase) (s : State) : State :=
  if decide (phase s = p) then s
  else phase_effect
         {| phase := p; timer := timer s; selected := selected s;
            submitted := submitted s; scores := scores s |}.

(** The countdown: the effect with dependencies [[phase, timer]] arms a
    one-second timeout unless its guard returns; [tick] is that timeout
    firing. *)
Definition tick (s : State) : State :=
  if bool_decide (phase s ≠ Study ∧ phase s ≠ Distract) || (timer s <=? 0)%Z
  then s
  else if (timer s =? 1)%Z
       then setPhase (if decide (phase s = Study) then Distract else Recall) s
       else setTimer (λ t, (t - 1)%Z) s.

Definition goHome (s : State) : State :=
  setScores None (setSubmitted false (setSelected (λ _, ∅) (setPhase Intro s))).

Definition toggleWord (w : string) (s : State) : State :=
  if submitted s then s
  else setSelected
         (λ prev,
            if decide (w ∈ prev) then prev ∖ {[w]}
            else if decide (length WORDS ≤ size prev)%nat then prev
            else prev ∪ {[w]}) s.

Definition submit (s : State) : State :=
  setPhase Results
    (setSubmitted true (setScores (Some (computeScores (selected s))) s)).

(** ** The controls each phase renders *)

(** [<button onClick={onClick} disabled={disabled}>]: a disabled button
    delivers no click. *)
Definition Btn (disabled : bool) (onClick : State → State) (s : State) : State :=
  if disabled then s else onClick s.

Inductive Event :=
  | BeginClick
  | Tick
  | SkipClick
  | TileClick (w : string)
  | SubmitClick
  | HomeClick.

(** What an event does in the state it arrives in.  A control that the
    current phase does not render receives nothing.  The results view is
    rendered only once [scores] is set, and its tiles carry the empty
    handler.  The recall view renders one tile per grid item; a tile click
    is allowed here for any text.  [SkipClick] is the skip button that the
    study and distract views of the earlier copy render. *)
Definition dispatch (e : Event) (s : State) : State :=
  match e, phase s with
  | Tick, _ => tick s
  | BeginClick, Intro => Btn false (setPhase Study) s
  | SkipClick, Study => Btn false (setPhase Distract) s
  | SkipClick, Distract => Btn false (setPhase Recall) s
  | TileClick w, Recall => toggleWord w s
  | SubmitClick, Recall =>
      Btn (bool_decide (size (selected s) = 0)) submit s
  | HomeClick, Results =>
      match scores s with Some _ => goHome s | None => s end
  | _, _ => s
  end.

Definition run (evs : list Event) (s : State) : State :=
  foldl (λ s e, dispatch e s) s evs.

Definition reachable (s : State) : Prop :=
  ∃ evs, s = run evs initial_state.

Definition ticks (n : nat) (s : State) : State := Nat.iter n tick s.

(** ** Breakpoints *)

Inductive Breakpoint := Mobile | Tablet | Laptop | Desktop.

#[global] Instance Breakpoint_eq_dec : EqDecision Breakpoint.
Proof. solve_decision. Defined.

(** [w] is [window.innerWidth], an integer number of pixels. *)
Definition getBreakpoint (w : Z) : Breakpoint :=
  if (w <=? 480)%Z then Mobile
  else if (w <=? 768)%Z then Tablet
  else if (w <=? 1280)%Z then Laptop
  else Desktop.

(** [Partial<Record<Breakpoint, T>> & { desktop: T }]: a key that is left
    out reads as [undefined]. *)
Record PickMap (T : Type) :=
  { mobile : option T; tablet : option T; laptop : option T; desktop : T }.

Arguments mobile {T}.
Arguments tablet {T}.
Arguments laptop {T}.
Arguments desktop {T}.

Definition pick {T : Type} (bp : Breakpoint) (map : PickMap T) : T :=
  match bp, mobile map with
  | Mobile, Some v => v
  | _, _ =>
      match bp, tablet map with
      | Tablet, Some v => v
      | _, _ =>
          match bp, laptop map with
          | Laptop, Some v => v
          | _, _ => desktop map
          end
      end
  end.

(** ** The timer badge *)

(** [Math.floor x]: the floor of a finite double, taken exactly. *)
Definition Math_floor (x : float) : float :=
  match Prim2SF x with
  | S754_finite sg m e =>
      if (0 <=? e)%Z then x
      else JS.of_Z ((if sg then Z.neg m else Z.pos m) / 2 ^ (- e))%Z
  | _ => x
  end.

(** The characters [padStart] puts in front: [pad] repeated and cut to
    [n] characters; nothing when [pad] is empty. *)
Fixpoint filler (n : nat) (pad rest : string) : string :=
  match n with
  | 0 => ""
  | S n' =>
      match rest with
      | String c rest' => String c (filler n' pad rest')
      | EmptyString =>
          match pad with
          | String c pad' => String c (filler n' pad pad')
          | EmptyString => ""
          end
      end
  end.

Definition padStart (targetLength : nat) (padString : string) (str : string)
    : string :=
  filler (targetLength - String.length str) padString padString +:+ str.

(** [fmt] is applied to the timer, an integer.  On integers
    [Math.floor(s / 60)] is the floor quotient, [s % 60] the remainder with
    the sign of [s], and [String] the decimal numeral. *)
Definition fmt (s : Z) : string :=
  pretty (s `div` 60)%Z +:+ ":" +:+ padStart 2 "0" (pretty (s `rem` 60)%Z).

(** ** Tiles *)

Inductive TileState := Idle | Selected | Correct | Miss | FalsePos.

#[global] Instance TileState_eq_dec : EqDecision TileState.
Proof. solve_decision. Defined.

Definition getTileState (st : State) (item : WordItem) : TileState :=
  if negb (submitted st)
  then if bool_decide (wi_word item ∈ selected st) then Selected else Idle
  else if isTarget item && bool_decide (wi_word item ∈ selected st)
  then Correct
  else if isTarget item && negb (bool_decide (wi_word item ∈ selected st))
  then Miss
  else if negb (isTarget item) && bool_decide (wi_word item ∈ selected st)
  then FalsePos
  else Idle.

(** * Properties *)

(** ** Facts about the word tables *)

Definition target_texts : gset string := list_to_set (word <$> WORDS).

Lemma WORDS_length : length WORDS = 15.
Proof. reflexivity. Qed.

Lemma FALSE_POSITIVES_length : length FALSE_POSITIVES = 10.
Proof. reflexivity. Qed.

Lemma WORDS_NoDup : NoDup (word <$> WORDS).
Proof. apply (bool_decide_unpack _). by vm_compute. Qed.

(** ** Counting lemmas, for any word list *)

Section Counting.
Variable sel : gset string.

Definition match_word (w : Word) : MatchedWord :=
  {| m_word := word w; m_lang := lang w; m_pos := pos w;
     recalled := bool_decide (word w ∈ sel) |}.

Lemma recalled_count (ws : list Word) :
  length (filter (λ m, recalled m) (match_word <$> ws))
  = length (filter (λ w, word w ∈ sel) ws).
Proof.
  induction ws as [|w ws IH]; [done|].
  rewrite fmap_cons, !filter_cons. simpl.
  destruct (decide (bool_decide (word w ∈ sel))) as [Hm|Hm];
    destruct (decide (word w ∈ sel)) as [Hw|Hw]; simpl.
  - by rewrite IH.
  - by apply bool_decide_unpack in Hm.
  - destruct Hm. by apply bool_decide_pack.
  - done.
Qed.

(** Splitting by language commutes with the tagging. *)
Lemma filter_lang_match (l : string) (ws : list Word) :
  filter (λ m, m_lang m = l) (match_word <$> ws)
  = match_word <$> filter (λ w, lang w = l) ws.
Proof.
  induction ws as [|w ws IH]; [done|].
  rewrite fmap_cons, !filter_cons. simpl.
  destruct (decide (lang w = l)); by rewrite IH.
Qed.

(** With distinct texts, counting the words found in [sel] is counting the
    texts that [sel] shares with the list. *)
Lemma members_count (ws : list Word) :
  NoDup (word <$> ws) →
  length (filter (λ w, word w ∈ sel) ws) = size (sel ∩ list_to_set (word <$> ws)).
Proof.
  induction ws as [|w ws IH]; intros Hnd.
  - simpl. by rewrite intersection_empty_r_L, size_empty.
  - rewrite fmap_cons in Hnd. apply NoDup_cons in Hnd as [Hw Hnd].
    rewrite filter_cons, fmap_cons, list_to_set_cons.
    destruct (decide (word w ∈ sel)) as [Hin|Hin].
    + assert (sel ∩ ({[word w]} ∪ list_to_set (word <$> ws))
              = {[word w]} ∪ sel ∩ list_to_set (word <$> ws)) as ->.
      { apply set_eq. intros x.
        rewrite !elem_of_intersection, !elem_of_union, elem_of_intersection,
          elem_of_singleton.
        intuition congruence. }
      rewrite size_union, size_singleton.
      * simpl. by rewrite IH.
      * apply disjoint_singleton_l.
        rewrite elem_of_intersection, elem_of_list_to_set. tauto.
    + assert (sel ∩ ({[word w]} ∪ list_to_set (word <$> ws))
              = sel ∩ list_to_set (word <$> ws)) as ->.
      { apply set_eq. intros x.
        rewrite !elem_of_intersection, !elem_of_union, elem_of_singleton.
        intuition congruence. }
      by apply IH.
Qed.

(** Filtering the elements of a set and counting is the size of the
    difference. *)
Lemma outsiders_count (targets : list string) :
  length (filter (λ w, w ∉ targets) (elements sel))
  = size (sel ∖ list_to_set targets).
Proof.
  rewrite <- (size_list_to_set (C := gset string)).
  - f_equal. apply set_eq. intros x.
    rewrite elem_of_list_to_set, list_elem_of_filter, elem_of_elements,
      elem_of_difference, elem_of_list_to_set.
    tauto.
  - apply NoDup_filter, NoDup_elements.
Qed.

End Counting.

(** ** The scorer *)

Lemma computeScores_total (sel : gset string) :
  total (computeScores sel) = length (filter (λ w, word w ∈ sel) WORDS).
Proof. apply (recalled_count sel WORDS). Qed.

Lemma computeScores_falsePosCount (sel : gset string) :
  falsePosCount (computeScores sel) = size (sel ∖ target_texts).
Proof. apply (outsiders_count sel (word <$> WORDS)). Qed.

Lemma submit_scores (s : State) :
  scores (submit s) = Some (computeScores (selected s)).
Proof. unfold submit, setPhase. by case_decide. Qed.

Lemma total_counts_recalled_targets_aux (sel : gset string) :
  total (computeScores sel) = length (filter (λ w, word w ∈ sel) WORDS)
  ∧ total (computeScores sel) = size (sel ∩ target_texts).
Proof.
  split; [apply computeScores_total|].
  rewrite computeScores_total. apply members_count, WORDS_NoDup.
Qed.

(** C1: for every selection set [sel], the [total] that [submit] stores is the
    number of entries of [WORDS] whose text is in [sel]; the fifteen texts
    being distinct, that is the number of target texts in [sel]. *)
Theorem total_counts_recalled_targets (sel : gset string) :
  total (computeScores sel) = length (filter (λ w, word w ∈ sel) WORDS)
  ∧ total (computeScores sel) = size (sel ∩ target_texts)
  ∧ ∀ s, scores (submit (setSelected (λ _, sel) s)) = Some (computeScores sel).
Proof.
  destruct (total_counts_recalled_targets_aux sel) as [Hlen Hsize].
  repeat split; [done..|]. intros s. apply submit_scores.
Qed.

(** C2: for every selection set [sel], [falsePosCount] is the number of
    elements of [sel] that are the text of no target word: the size of the
    set difference.  The language of a word is never consulted. *)
Theorem falsePosCount_is_difference_size (sel : gset string) :
  falsePosCount (computeScores sel) = size (sel ∖ target_texts)
  ∧ ∀ s, falsePosCount <$> scores (submit (setSelected (λ _, sel) s))
         = Some (size (sel ∖ target_texts)).
Proof.
  split; [apply computeScores_falsePosCount|].
  intros s. rewrite submit_scores.
  exact (f_equal Some (computeScores_falsePosCount sel)).
Qed.

(** The scenario of the specification: five targets and two decoys. *)
Example five_targets_two_decoys :
  let sc := computeScores
              {[ "Apple"; "Hund"; "Memory"; "Blå"; "River"; "Forest"; "Natt" ]} in
  total sc = 5 ∧ falsePosCount sc = 2.
Proof. by vm_compute. Qed.

(** ** Rates *)

(** [Math.round((k / n) * 100)] on two lengths. *)
Definition percent (k n : nat) : float :=
  JS.Math_round
    (PrimFloat.mul (PrimFloat.div (JS.of_nat k) (JS.of_nat n)) (JS.of_nat 100)).

Definition EN_words : list Word := filter (λ w, lang w = "EN") WORDS.
Definition SV_words : list Word := filter (λ w, lang w = "SV") WORDS.

Lemma EN_words_length : length EN_words = 8.
Proof. reflexivity. Qed.

Lemma SV_words_length : length SV_words = 7.
Proof. reflexivity. Qed.

Lemma computeScores_audienceRet (sel : gset string) :
  audienceRet (computeScores sel) = percent (total (computeScores sel)) (length WORDS).
Proof. reflexivity. Qed.

Lemma computeScores_enRate (sel : gset string) :
  enRate (computeScores sel)
  = percent (length (filter (λ w, word w ∈ sel) EN_words)) (length EN_words).
Proof.
  unfold computeScores, percent, enRate. fold (match_word sel).
  by rewrite (filter_lang_match sel "EN" WORDS), recalled_count, length_fmap.
Qed.

Lemma computeScores_svRate (sel : gset string) :
  svRate (computeScores sel)
  = percent (length (filter (λ w, word w ∈ sel) SV_words)) (length SV_words).
Proof.
  unfold computeScores, percent, svRate. fold (match_word sel).
  by rewrite (filter_lang_match sel "SV" WORDS), recalled_count, length_fmap.
Qed.

(** On the three denominators of the word list, the double computation
    yields exactly the integer round-half-up of [100 * k / n]: every
    numerator up to the denominator is run through the floating-point
    operations. *)
Tactic Notation "run_numerators" ident(k) "upto" integer(n) :=
  do n (destruct k as [|k]; [by vm_compute|]);
  destruct k as [|k]; [by vm_compute|lia].

Lemma percent_exact_8 (k : nat) :
  k ≤ 8 → percent k 8 = JS.of_Z (JS.round_half_up_percent k 8).
Proof. intros Hk. run_numerators k upto 8. Qed.

Lemma percent_exact_7 (k : nat) :
  k ≤ 7 → percent k 7 = JS.of_Z (JS.round_half_up_percent k 7).
Proof. intros Hk. run_numerators k upto 7. Qed.

Lemma percent_exact_15 (k : nat) :
  k ≤ 15 → percent k 15 = JS.of_Z (JS.round_half_up_percent k 15).
Proof. intros Hk. run_numerators k upto 15. Qed.

(** [round_half_up_percent k n] is the integer [r] with
    [r - 1/2 <= 100 * k / n < r + 1/2]. *)
Lemma round_half_up_percent_spec (k n : nat) :
  0 < n →
  let r := JS.round_half_up_percent k n in
  (2 * Z.of_nat n * r - Z.of_nat n ≤ 200 * Z.of_nat k
   < 2 * Z.of_nat n * r + Z.of_nat n)%Z.
Proof.
  intros Hn r. subst r. unfold JS.round_half_up_percent.
  pose proof (Z.div_mod (200 * Z.of_nat k + Z.of_nat n) (2 * Z.of_nat n)
                ltac:(lia)) as Hdiv.
  pose proof (Z.mod_pos_bound (200 * Z.of_nat k + Z.of_nat n)
                (2 * Z.of_nat n) ltac:(lia)) as Hmod.
  lia.
Qed.

Lemma round_half_up_percent_bounds (k n : nat) :
  0 < n → k ≤ n → (0 ≤ JS.round_half_up_percent k n ≤ 100)%Z.
Proof.
  intros Hn Hk. unfold JS.round_half_up_percent. split.
  - apply Z.div_pos; lia.
  - apply Z.lt_succ_r, Z.div_lt_upper_bound; lia.
Qed.

Lemma computeScores_total_le (sel : gset string) :
  total (computeScores sel) ≤ length WORDS.
Proof. rewrite computeScores_total. apply length_filter. Qed.

(** A selection made of target texts only. *)
Lemma targets_only (sel : gset string) :
  sel ⊆ target_texts →
  total (computeScores sel) = size sel ∧ falsePosCount (computeScores sel) = 0.
Proof.
  intros Hsub. split.
  - destruct (total_counts_recalled_targets_aux sel) as [_ ->].
    f_equal. apply set_eq. intros x. rewrite elem_of_intersection.
    specialize (Hsub x). tauto.
  - rewrite computeScores_falsePosCount.
    apply size_empty_iff, equiv_empty. intros x.
    rewrite elem_of_difference. specialize (Hsub x). tauto.
Qed.

Definition first_eight : gset string :=
  {[ "Apple"; "Hund"; "Memory"; "Blå"; "River"; "Stjärna"; "Garden"; "Flicka" ]}.

(** C6: [audienceRet] is the round-half-up of [100 * total / 15], as the
    double holding that integer; and a selection of exactly eight target
    texts scores [total = 8], [audienceRet = 53], [falsePosCount = 0]. *)
Theorem retention_is_rounded_percentage (sel : gset string) :
  audienceRet (computeScores sel)
  = JS.of_Z (JS.round_half_up_percent (total (computeScores sel)) (length WORDS))
  ∧ (sel ⊆ target_texts → size sel = 8 →
     total (computeScores sel) = 8
     ∧ audienceRet (computeScores sel) = JS.of_Z 53
     ∧ falsePosCount (computeScores sel) = 0).
Proof.
  split.
  - rewrite computeScores_audienceRet.
    apply percent_exact_15, computeScores_total_le.
  - intros Hsub Hsize. destruct (targets_only sel Hsub) as [Ht Hf].
    rewrite computeScores_audienceRet, Ht, Hsize. by vm_compute.
Qed.

Lemma retention_first_eight :
  total (computeScores first_eight) = 8
  ∧ audienceRet (computeScores first_eight) = JS.of_Z 53
  ∧ falsePosCount (computeScores first_eight) = 0.
Proof.
  apply (proj2 (retention_is_rounded_percentage first_eight)).
  - apply (bool_decide_unpack _). vm_compute. exact I.
  - vm_compute. reflexivity.
Defined.

(** C9: for every selection set, [enRate] and [svRate] are the doubles of
    integers between 0 and 100, and the two divisors, the lengths of the
    language partitions of [matched], are 8 and 7, never zero. *)
Theorem language_rates_in_range (sel : gset string) :
  let sc := computeScores sel in
  length (filter (λ m, m_lang m = "EN") (matched sc)) = 8
  ∧ length (filter (λ m, m_lang m = "SV") (matched sc)) = 7
  ∧ ∃ e v : Z,
      enRate sc = JS.of_Z e ∧ svRate sc = JS.of_Z v
      ∧ (0 ≤ e ≤ 100)%Z ∧ (0 ≤ v ≤ 100)%Z.
Proof.
  intros sc. split; [|split].
  - change (matched sc) with (match_word sel <$> WORDS).
    by rewrite filter_lang_match, length_fmap.
  - change (matched sc) with (match_word sel <$> WORDS).
    by rewrite filter_lang_match, length_fmap.
  - pose proof (length_filter (λ w, word w ∈ sel) EN_words) as He.
    pose proof (length_filter (λ w, word w ∈ sel) SV_words) as Hv.
    rewrite EN_words_length in He. rewrite SV_words_length in Hv.
    exists (JS.round_half_up_percent (length (filter (λ w, word w ∈ sel) EN_words)) 8),
           (JS.round_half_up_percent (length (filter (λ w, word w ∈ sel) SV_words)) 7).
    subst sc. rewrite computeScores_enRate, computeScores_svRate.
    rewrite EN_words_length, SV_words_length.
    repeat split; try (by apply percent_exact_8); try (by apply percent_exact_7);
      apply round_half_up_percent_bounds; lia.
Qed.

(** ** The phase controller *)

Lemma run_snoc (evs : list Event) (e : Event) (s : State) :
  run (evs ++ [e])%list s = dispatch e (run evs s).
Proof. unfold run. by rewrite foldl_app. Qed.

Lemma reachable_initial : reachable initial_state.
Proof. by exists []. Qed.

Lemma reachable_run (evs : list Event) : reachable (run evs initial_state).
Proof. by exists evs. Qed.

Lemma reachable_dispatch (e : Event) (s : State) :
  reachable s → reachable (dispatch e s).
Proof. intros [evs ->]. exists (evs ++ [e])%list. by rewrite run_snoc. Qed.

(** What holds of the cells in every reachable state. *)
Record consistent (s : State) : Prop :=
  { cap : size (selected s) ≤ length WORDS;
    results_submitted : phase s = Results → submitted s = true;
    results_scored : phase s = Results → is_Some (scores s);
    before_results : phase s ≠ Results → submitted s = false ∧ scores s = None;
    before_recall :
      phase s = Intro ∨ phase s = Study ∨ phase s = Distract → selected s = ∅ }.

Lemma setPhase_phase (p : Phase) (s : State) : phase (setPhase p s) = p.
Proof. unfold setPhase. case_decide; [done|]. by destruct p. Qed.

Lemma setPhase_selected (p : Phase) (s : State) :
  selected (setPhase p s) = selected s.
Proof. unfold setPhase. case_decide; [done|]. by destruct p. Qed.

Lemma setPhase_submitted (p : Phase) (s : State) :
  submitted (setPhase p s) = submitted s.
Proof. unfold setPhase. case_decide; [done|]. by destruct p. Qed.

Lemma setPhase_scores (p : Phase) (s : State) :
  scores (setPhase p s) = scores s.
Proof. unfold setPhase. case_decide; [done|]. by destruct p. Qed.

Lemma tick_selected (s : State) : selected (tick s) = selected s.
Proof.
  unfold tick. destruct (_ || _); [done|].
  destruct (_ =? _)%Z; [apply setPhase_selected|done].
Qed.

Lemma tick_submitted (s : State) : submitted (tick s) = submitted s.
Proof.
  unfold tick. destruct (_ || _); [done|].
  destruct (_ =? _)%Z; [apply setPhase_submitted|done].
Qed.

Lemma tick_scores (s : State) : scores (tick s) = scores s.
Proof.
  unfold tick. destruct (_ || _); [done|].
  destruct (_ =? _)%Z; [apply setPhase_scores|done].
Qed.

(** A tick leaves the phase alone or moves it along the countdown. *)
Lemma tick_phase (s : State) :
  phase (tick s) = phase s
  ∨ (timer s = 1%Z
     ∧ (phase s = Study ∧ phase (tick s) = Distract
        ∨ phase s = Distract ∧ phase (tick s) = Recall)).
Proof.
  unfold tick.
  destruct (bool_decide _) eqn:Hg; simpl; [by left|].
  destruct (timer s <=? 0)%Z; [by left|].
  destruct (timer s =? 1)%Z eqn:Ht; [|by left].
  apply Z.eqb_eq in Ht. right. split; [done|].
  rewrite setPhase_phase. apply bool_decide_eq_false in Hg.
  destruct (phase s); try (destruct Hg; done); case_decide; auto; done.
Qed.

Lemma tick_outside_countdown (s : State) :
  phase s ≠ Study → phase s ≠ Distract → tick s = s.
Proof.
  intros H1 H2. unfold tick. by rewrite bool_decide_eq_true_2.
Qed.

(** [toggleWord] on the selection alone. *)
Lemma toggleWord_selected_size (w : string) (s : State) :
  size (selected s) ≤ length WORDS →
  size (selected (toggleWord w s)) ≤ length WORDS.
Proof.
  intros Hcap. unfold toggleWord. destruct (submitted s); [done|].
  cbn [selected setSelected].
  destruct (decide (w ∈ selected s)) as [Hin|Hin].
  - etrans; [|exact Hcap]. apply subseteq_size, subseteq_difference_l. done.
  - destruct (decide (length WORDS ≤ size (selected s))) as [Hfull|Hroom];
      [done|].
    rewrite size_union, size_singleton; [lia|].
    by apply disjoint_singleton_r.
Qed.

Lemma consistent_initial : consistent initial_state.
Proof.
  split; try done.
  cbn [selected initial_state]. rewrite size_empty. lia.
Qed.

Lemma consistent_dispatch (e : Event) (s : State) :
  consistent s → consistent (dispatch e s).
Proof.
  intros Hinv. pose proof Hinv as [Hcap Hsub Hsc Hbefore Hempty].
  destruct e as [| | |w| |]; unfold dispatch.
  - (* BeginClick *)
    destruct (phase s) eqn:Hp; try done.
    unfold Btn. split; rewrite ?setPhase_phase, ?setPhase_selected,
      ?setPhase_submitted, ?setPhase_scores; try done.
    + intros _. by apply Hbefore.
    + intros _. apply Hempty. auto.
  - (* Tick *)
    split; rewrite ?tick_selected, ?tick_submitted, ?tick_scores; try done.
    + intros Hres. apply Hsub.
      destruct (tick_phase s) as [Heq|(_ & [[_ Hs]|[_ Hs]])]; congruence.
    + intros Hres. apply Hsc.
      destruct (tick_phase s) as [Heq|(_ & [[_ Hs]|[_ Hs]])]; congruence.
    + intros Hne. apply Hbefore. intros Hres.
      destruct (tick_phase s) as [Heq|(_ & [[Hs _]|[Hs _]])]; congruence.
    + intros Hphase. apply Hempty.
      destruct (tick_phase s) as [Heq|(_ & [[Hs _]|[Hs Hr]])]; auto.
      by rewrite <- Heq.
  - (* SkipClick *)
    destruct (phase s) eqn:Hp; try done; unfold Btn;
      (split; rewrite ?setPhase_phase, ?setPhase_selected,
         ?setPhase_submitted, ?setPhase_scores; try done).
    + intros _. by apply Hbefore.
    + intros _. apply Hempty. auto.
    + intros _. by apply Hbefore.
    + by intros [|[|]].
  - (* TileClick *)
    destruct (phase s) eqn:Hp; try done.
    destruct (Hbefore ltac:(done)) as [Hns Hnone].
    unfold toggleWord. rewrite Hns. split; cbn [phase submitted scores setSelected].
    + apply (toggleWord_selected_size w) in Hcap.
      unfold toggleWord in Hcap. by rewrite Hns in Hcap.
    + by rewrite Hp.
    + by rewrite Hp.
    + done.
    + rewrite Hp. by intros [|[|]].
  - (* SubmitClick *)
    destruct (phase s) eqn:Hp; try done.
    unfold Btn. case_bool_decide; [done|].
    unfold submit. split; rewrite ?setPhase_phase, ?setPhase_selected,
      ?setPhase_submitted, ?setPhase_scores;
      cbn [selected submitted scores setSubmitted setScores]; try done.
    by intros [|[|]].
  - (* HomeClick *)
    destruct (phase s) eqn:Hp; try done.
    destruct (scores s) eqn:Hscores; [|done].
    unfold goHome. split; cbn [selected submitted scores phase setScores
      setSubmitted setSelected]; try done.
    + rewrite size_empty. lia.
    + rewrite setPhase_phase. done.
    + rewrite setPhase_phase. done.
Qed.

Lemma reachable_consistent (s : State) : reachable s → consistent s.
Proof.
  intros [evs ->]. induction evs as [|e evs IH] using rev_ind.
  - apply consistent_initial.
  - rewrite run_snoc. by apply consistent_dispatch.
Qed.

(** Sample sessions, used to exhibit concrete reachable states. *)
Definition enter_recall : list Event :=
  BeginClick :: replicate (Z.to_nat STUDY_TIME + Z.to_nat DISTRACT_TIME) Tick.

Definition select_all_targets : list Event :=
  TileClick <$> (word <$> WORDS).

Definition at_recall : State := run enter_recall initial_state.

Definition at_cap : State :=
  run (enter_recall ++ select_all_targets)%list initial_state.

Definition at_results : State :=
  run (enter_recall ++ [TileClick "Apple"; SubmitClick])%list initial_state.

Example at_recall_cells :
  phase at_recall = Recall ∧ selected at_recall = ∅
  ∧ submitted at_recall = false.
Proof.
  split; [by vm_compute|]. split; [|by vm_compute].
  apply (bool_decide_unpack _). by vm_compute.
Qed.

Example at_cap_cells :
  phase at_cap = Recall ∧ size (selected at_cap) = 15
  ∧ selected at_cap = target_texts.
Proof.
  split; [by vm_compute|]. split; [by vm_compute|].
  apply (bool_decide_unpack _). by vm_compute.
Qed.

Example at_results_cells :
  phase at_results = Results ∧ submitted at_results = true
  ∧ selected at_results = {["Apple"]}
  ∧ (total <$> scores at_results) = Some 1.
Proof.
  split; [by vm_compute|]. split; [by vm_compute|].
  split; [|by vm_compute].
  apply (bool_decide_unpack _). by vm_compute.
Qed.

(** *** toggleWord *)

Lemma toggleWord_submitted (w : string) (s : State) :
  submitted s = true → toggleWord w s = s.
Proof. intros H. unfold toggleWord. by rewrite H. Qed.

(** C3: in every state whose phase is not [Recall] (intro, study,
    distract or results), toggling a word changes nothing, for every word
    and every selection: the state, and with it the selection set, is
    returned as it was.  The toggle reaches [toggleWord] through the tiles
    of the recall view only; the tiles of the results view carry the empty
    handler, and there [toggleWord] itself returns at its [submitted]
    test. *)
Theorem toggle_inert_outside_recall (w : string) (s : State) :
  phase s ≠ Recall →
  dispatch (TileClick w) s = s
  ∧ selected (dispatch (TileClick w) s) = selected s
  ∧ (reachable s → phase s = Results → toggleWord w s = s).
Proof.
  intros Hphase.
  assert (dispatch (TileClick w) s = s) as Hclick
    by (unfold dispatch; by destruct (phase s)).
  split; [exact Hclick|]. split; [by rewrite Hclick|].
  intros Hreach Hres. apply reachable_consistent in Hreach.
  apply toggleWord_submitted. by apply results_submitted.
Qed.

Lemma toggle_inert_at_results :
  dispatch (TileClick "Hund") at_results = at_results
  ∧ selected (dispatch (TileClick "Hund") at_results) = selected at_results
  ∧ toggleWord "Hund" at_results = at_results.
Proof.
  assert (phase at_results = Results) as Hres by (vm_compute; reflexivity).
  assert (phase at_results ≠ Recall) as Hne by (vm_compute; discriminate).
  destruct (toggle_inert_outside_recall "Hund" at_results Hne)
    as (Hclick & Hsel & Hcall).
  split; [exact Hclick|]. split; [exact Hsel|].
  exact (Hcall (reachable_run _) Hres).
Defined.

(** *** submit *)

(** The handler itself has no guard: whatever the selection, it stores a
    result and moves to [Results].  The guard is the button's. *)
Lemma submit_unguarded (s : State) :
  phase (submit s) = Results ∧ submitted (submit s) = true
  ∧ is_Some (scores (submit s)).
Proof.
  unfold submit.
  rewrite setPhase_phase, setPhase_submitted, setPhase_scores. by cbn.
Qed.

(** C4: in every reachable state whose phase is [Recall] and whose
    selection is empty, the submit button is disabled: a click on it changes
    no cell, the phase stays [Recall] and [scores] stays unset. *)
Theorem empty_submit_rejected (s : State) :
  reachable s → phase s = Recall → selected s = ∅ →
  dispatch SubmitClick s = s
  ∧ phase (dispatch SubmitClick s) = Recall
  ∧ scores (dispatch SubmitClick s) = None.
Proof.
  intros Hreach Hphase Hsel.
  assert (dispatch SubmitClick s = s) as ->.
  { unfold dispatch, Btn. rewrite Hphase, Hsel, size_empty.
    by rewrite bool_decide_eq_true_2. }
  repeat split; [done|].
  apply reachable_consistent in Hreach.
  apply (before_results s Hreach). by rewrite Hphase.
Qed.

Lemma empty_submit_rejected_at_recall :
  dispatch SubmitClick at_recall = at_recall
  ∧ phase (dispatch SubmitClick at_recall) = Recall
  ∧ scores (dispatch SubmitClick at_recall) = None.
Proof.
  apply (empty_submit_rejected at_recall).
  - apply reachable_run.
  - vm_compute. reflexivity.
  - vm_compute. reflexivity.
Defined.

(** C5: in every reachable state the selection holds at most
    [WORDS.length = 15] texts; and with fifteen selected, toggling a word
    that is not selected returns the state as it was. *)
Theorem selection_never_exceeds_cap (w : string) (s : State) :
  reachable s →
  length WORDS = 15
  ∧ size (selected s) ≤ 15
  ∧ (size (selected s) = 15 → w ∉ selected s →
     toggleWord w s = s ∧ dispatch (TileClick w) s = s
     ∧ size (selected (toggleWord w s)) = 15).
Proof.
  intros Hreach. apply reachable_consistent in Hreach.
  split; [done|]. split; [apply Hreach|].
  intros Hfull Hnew.
  assert (toggleWord w s = s) as Htoggle.
  { unfold toggleWord. destruct (submitted s); [done|].
    destruct s as [p t sel sub sc]. cbn [selected] in *.
    unfold setSelected. cbn [phase timer selected submitted scores].
    rewrite decide_False by done.
    rewrite decide_True; [done|]. rewrite Hfull. done. }
  rewrite Htoggle. repeat split; [|done].
  unfold dispatch. destruct (phase s); done.
Qed.

Lemma sixteenth_word_rejected :
  size (selected at_cap) ≤ 15
  ∧ toggleWord "Forest" at_cap = at_cap
  ∧ dispatch (TileClick "Forest") at_cap = at_cap
  ∧ size (selected (toggleWord "Forest" at_cap)) = 15.
Proof.
  destruct (selection_never_exceeds_cap "Forest" at_cap (reachable_run _))
    as (_ & Hle & Hfull).
  split; [exact Hle|]. apply Hfull.
  - vm_compute. reflexivity.
  - apply (bool_decide_unpack _). vm_compute. exact I.
Defined.

(** C10: before submission, toggling a word that is selected removes it,
    whatever the size of the selection, fifteen included: membership is
    tested before the cap. *)
Theorem toggle_selected_word_removes_it (w : string) (s : State) :
  submitted s = false → w ∈ selected s →
  selected (toggleWord w s) = selected s ∖ {[w]}
  ∧ (w ∉ selected (toggleWord w s))
  ∧ size (selected (toggleWord w s)) = pred (size (selected s)).
Proof.
  intros Hsub Hin.
  assert (selected (toggleWord w s) = selected s ∖ {[w]}) as ->.
  { unfold toggleWord. rewrite Hsub. cbn [selected setSelected].
    by rewrite decide_True. }
  split; [done|]. split.
  - rewrite elem_of_difference, elem_of_singleton. tauto.
  - rewrite size_difference by (by apply singleton_subseteq_l).
    rewrite size_singleton. lia.
Qed.

Lemma deselect_at_cap :
  size (selected at_cap) = 15
  ∧ selected (toggleWord "Snö" at_cap) = selected at_cap ∖ {["Snö"]}
  ∧ ("Snö" ∉ selected (toggleWord "Snö" at_cap))
  ∧ size (selected (toggleWord "Snö" at_cap)) = pred (size (selected at_cap)).
Proof.
  split; [by vm_compute|].
  apply (toggle_selected_word_removes_it "Snö" at_cap).
  - vm_compute. reflexivity.
  - apply (bool_decide_unpack _). vm_compute. exact I.
Defined.

(** *** The countdown *)

Lemma ticks_succ (k : nat) (s : State) : ticks (S k) s = tick (ticks k s).
Proof. reflexivity. Qed.

Lemma ticks_add (k n : nat) (s : State) :
  ticks (n + k) s = ticks k (ticks n s).
Proof. unfold ticks. by rewrite Nat.add_comm, Nat.iter_add. Qed.

(** While more than [k] seconds remain, [k] ticks only lower the timer. *)
Lemma ticks_decrement (k : nat) (s : State) :
  phase s = Study ∨ phase s = Distract →
  (Z.of_nat k < timer s)%Z →
  ticks k s = setTimer (λ t, (t - Z.of_nat k)%Z) s.
Proof.
  intros Hphase. induction k as [|k IH]; intros Hk.
  - destruct s. unfold setTimer. simpl. f_equal. lia.
  - rewrite ticks_succ, IH by lia. unfold tick.
    cbn [phase timer setTimer].
    rewrite bool_decide_eq_false_2 by (destruct Hphase as [->| ->]; by intros [? ?]).
    destruct (Z.leb_spec (timer s - Z.of_nat k) 0); [lia|].
    destruct (Z.eqb_spec (timer s - Z.of_nat k) 1); [lia|].
    cbn [orb]. unfold setTimer. cbn [phase timer selected submitted scores].
    f_equal. lia.
Qed.

(** The tick that finds one second left changes the phase. *)
Lemma tick_expires (s : State) :
  phase s = Study ∨ phase s = Distract → timer s = 1%Z →
  tick s = setPhase (if decide (phase s = Study) then Distract else Recall) s.
Proof.
  intros Hphase Ht. unfold tick. rewrite Ht.
  by rewrite bool_decide_eq_false_2 by (destruct Hphase as [->| ->]; by intros [? ?]).
Qed.

(** A countdown loaded with [n] seconds, [n] positive, runs through
    [n - 1] plain ticks and expires on the [n]-th. *)
Lemma countdown_runs (n : nat) (s : State) :
  phase s = Study ∨ phase s = Distract → timer s = Z.of_nat (S n) →
  (∀ k, k < S n → phase (ticks k s) = phase s)
  ∧ ticks (S n) s
    = setPhase (if decide (phase s = Study) then Distract else Recall)
        (setTimer (λ _, 1%Z) s).
Proof.
  intros Hphase Ht. split.
  - intros k Hk. by rewrite ticks_decrement by (try done; lia).
  - rewrite ticks_succ, ticks_decrement by (try done; lia).
    rewrite tick_expires; cbn [phase timer setTimer]; [|done|lia].
    f_equal. unfold setTimer. f_equal. lia.
Qed.

Lemma begin_enters_study (s : State) :
  phase s = Intro →
  phase (dispatch BeginClick s) = Study
  ∧ timer (dispatch BeginClick s) = STUDY_TIME.
Proof.
  intros Hp. unfold dispatch, Btn, setPhase. rewrite Hp.
  by rewrite decide_False.
Qed.

(** From a study state whose countdown is loaded. *)
Lemma countdown_from_study (s : State) :
  phase s = Study → timer s = STUDY_TIME →
  let n := Z.to_nat STUDY_TIME in
  let m := Z.to_nat DISTRACT_TIME in
  (∀ k, k < n → phase (ticks k s) = Study)
  ∧ phase (ticks n s) = Distract
  ∧ timer (ticks n s) = DISTRACT_TIME
  ∧ (∀ k, k < m → phase (ticks (n + k) s) = Distract)
  ∧ phase (ticks (n + m) s) = Recall.
Proof.
  intros Hp Ht n m.
  destruct (countdown_runs 39 s) as [Hstudy Hexp]; [by left|by rewrite Ht|].
  rewrite Hp in Hstudy, Hexp. rewrite decide_True in Hexp by done.
  change (S 39) with n in Hstudy, Hexp.
  set (d := ticks n s) in *.
  assert (phase d = Distract ∧ timer d = DISTRACT_TIME) as [Hpd Htd].
  { rewrite Hexp. unfold setPhase. cbn [phase setTimer].
    rewrite Hp. by rewrite decide_False. }
  destruct (countdown_runs 299 d) as [Hdistract Hexp2];
    [by right|by rewrite Htd|].
  rewrite Hpd in Hdistract, Hexp2. rewrite decide_False in Hexp2 by done.
  change (S 299) with m in Hdistract, Hexp2.
  split; [done|]. split; [done|]. split; [done|]. split.
  - intros k Hk. rewrite ticks_add. by apply Hdistract.
  - rewrite ticks_add. fold d. rewrite Hexp2. apply setPhase_phase.
Qed.

(** C7: the begin button enters the study phase with the timer at
    [STUDY_TIME].  From there the phase is still [Study] after fewer than
    [STUDY_TIME] ticks and is [Distract], with the timer at
    [DISTRACT_TIME], after exactly [STUDY_TIME]; it is still [Distract]
    after fewer than [DISTRACT_TIME] further ticks and [Recall] after
    exactly [DISTRACT_TIME].  A tick changes the phase in no other way, and
    in a phase other than [Study] and [Distract] it changes nothing. *)
Theorem countdown_drives_phases (s0 : State) :
  phase s0 = Intro →
  let s := dispatch BeginClick s0 in
  let n := Z.to_nat STUDY_TIME in
  let m := Z.to_nat DISTRACT_TIME in
  phase s = Study
  ∧ timer s = STUDY_TIME
  ∧ (∀ k, k < n → phase (ticks k s) = Study)
  ∧ phase (ticks n s) = Distract
  ∧ timer (ticks n s) = DISTRACT_TIME
  ∧ (∀ k, k < m → phase (ticks (n + k) s) = Distract)
  ∧ phase (ticks (n + m) s) = Recall
  ∧ (∀ s', phase s' ≠ Study → phase s' ≠ Distract → tick s' = s')
  ∧ (∀ s', phase (tick s') ≠ phase s' →
       timer s' = 1%Z
       ∧ (phase s' = Study ∧ phase (tick s') = Distract
          ∨ phase s' = Distract ∧ phase (tick s') = Recall)).
Proof.
  intros Hintro s n m.
  destruct (begin_enters_study s0 Hintro) as [Hp Ht]. fold s in Hp, Ht.
  destruct (countdown_from_study s Hp Ht) as (H1 & H2 & H3 & H4 & H5).
  split; [done|]. split; [done|]. split; [done|]. split; [done|].
  split; [done|]. split; [done|]. split; [done|]. split.
  - apply tick_outside_countdown.
  - intros s' Hchange. destruct (tick_phase s') as [Heq|H]; [done|exact H].
Qed.

Lemma countdown_after_begin :
  let s := dispatch BeginClick initial_state in
  phase s = Study
  ∧ timer s = 40%Z
  ∧ (∀ k, k < 40 → phase (ticks k s) = Study)
  ∧ phase (ticks 40 s) = Distract
  ∧ timer (ticks 40 s) = 300%Z
  ∧ (∀ k, k < 300 → phase (ticks (40 + k) s) = Distract)
  ∧ phase (ticks (40 + 300) s) = Recall
  ∧ (∀ s', phase s' ≠ Study → phase s' ≠ Distract → tick s' = s')
  ∧ (∀ s', phase (tick s') ≠ phase s' →
       timer s' = 1%Z
       ∧ (phase s' = Study ∧ phase (tick s') = Distract
          ∨ phase s' = Distract ∧ phase (tick s') = Recall)).
Proof.
  apply (countdown_drives_phases initial_state).
  vm_compute. reflexivity.
Defined.

(** *** The grid *)

Section ShuffleFacts.
Context {T : Type}.
Variable random : nat → float.

(** The binary search ends with the interval closed, inside its bounds:
    the rounds allowed are enough. *)
Lemma find_slot_closes (fuel left right calls : nat) :
  left ≤ right → right - left ≤ fuel →
  ∃ slot c, find_slot random fuel left right calls = (slot, slot, c)
            ∧ left ≤ slot ≤ right.
Proof.
  revert left right calls.
  induction fuel as [|fuel IH]; intros left right calls Hle Hfuel.
  - exists left, calls. assert (left = right) as -> by lia. by split.
  - cbn [find_slot]. destruct (decide (left < right)) as [Hlt|Hge].
    + assert (Nat.div2 (right - left) < right - left) as Hdiv
        by (apply Nat.lt_div2; lia).
      set (half := Nat.div2 (right - left)) in *. clearbody half.
      destruct (PrimFloat.ltb _ _).
      * destruct (IH left (left + half) (S calls))
          as (slot & c & -> & Hslot); [lia..|].
        exists slot, c. split; [done|lia].
      * destruct (IH (left + half + 1) right (S calls))
          as (slot & c & -> & Hslot); [lia..|].
        exists slot, c. split; [done|lia].
    + exists left, calls. assert (left = right) as -> by lia. by split.
Qed.

Lemma CountAndMakeRun_perm (arr : list T) (calls : nat) :
  (CountAndMakeRun random arr calls).1.1 ≡ₚ arr.
Proof.
  unfold CountAndMakeRun. destruct arr as [|x [|y rest]]; [done..|].
  destruct (extend_run _ _ _ _) as [n c]. cbn [fst].
  destruct (PrimFloat.ltb _ _); [|done].
  by rewrite reverse_Permutation, take_drop.
Qed.

Lemma BinaryInsertionSort_perm (sorted rest : list T) (calls : nat) :
  (BinaryInsertionSort random sorted rest calls).1 ≡ₚ (sorted ++ rest)%list.
Proof.
  revert sorted calls.
  induction rest as [|pivot rest IH]; intros sorted calls; cbn [BinaryInsertionSort].
  - by rewrite app_nil_r.
  - destruct (find_slot _ _ _ _ _) as [[slot r] c].
    rewrite IH. rewrite <- (take_drop slot sorted) at 3.
    rewrite <- !app_assoc. apply Permutation_app_head.
    rewrite <- !Permutation_middle. done.
Qed.

Lemma shuffle_perm (arr : list T) : shuffle random arr ≡ₚ arr.
Proof.
  unfold shuffle, ArrayTimSort. case_decide; [done|].
  pose proof (CountAndMakeRun_perm arr 0) as Hrun.
  destruct (CountAndMakeRun random arr 0) as [[arr1 runLength] c].
  cbn [fst] in Hrun.
  by rewrite BinaryInsertionSort_perm, take_drop.
Qed.

End ShuffleFacts.

(** A source of draws that alternates below and above one half. *)
Definition alternating (n : nat) : float :=
  if Nat.even n then PrimFloat.div (JS.of_nat 1) (JS.of_nat 4)
  else PrimFloat.div (JS.of_nat 3) (JS.of_nat 4).

(** With every draw at 0.25 the comparator is always negative: the whole
    array is one descending run and comes back reversed, after one
    comparison per neighbouring pair. *)
Example sort_all_negative :
  ArrayTimSort (λ _, PrimFloat.div (JS.of_nat 1) (JS.of_nat 4)) [1; 2; 3]
  = ([3; 2; 1], 2).
Proof. by vm_compute. Qed.

(** With draws 0.25, 0.75, 0.25, ... the run is the first two elements,
    reversed; each later element is then placed by two comparisons. *)
Example sort_alternating :
  ArrayTimSort alternating [1; 2; 3; 4; 5] = ([2; 4; 5; 3; 1], 8).
Proof. by vm_compute. Qed.

(** C8: whatever [Math.random] returns during the sort, the grid is a
    permutation of the fifteen targets tagged [isTarget = true] followed by
    the ten decoys tagged [isTarget = false]: the same items with the same
    multiplicities, twenty-five of them, fewer than the 64 from which the
    engine's sort would split the array into several runs. *)
Theorem grid_is_permutation (random : nat → float) :
  grid random ≡ₚ (target_item <$> WORDS) ++ (decoy_item <$> FALSE_POSITIVES)
  ∧ length (grid random) = length WORDS + length FALSE_POSITIVES
  ∧ length (grid random) = 25
  ∧ length grid_items < 64
  ∧ Forall (λ it, isTarget it = true) (target_item <$> WORDS)
  ∧ Forall (λ it, isTarget it = false) (decoy_item <$> FALSE_POSITIVES).
Proof.
  assert (grid random ≡ₚ grid_items) as Hperm by apply shuffle_perm.
  split; [exact Hperm|].
  split; [by rewrite Hperm|]. split; [by rewrite Hperm|].
  split; [cbn; lia|].
  split; apply Forall_fmap, Forall_true; done.
Qed.

(** * More of the component *)

(** ** Breakpoints *)

Definition rank (bp : Breakpoint) : nat :=
  match bp with Mobile => 0 | Tablet => 1 | Laptop => 2 | Desktop => 3 end.

(** X1: the three thresholds are inclusive upper bounds, and a wider
    window never gets a smaller breakpoint. *)
Theorem getBreakpoint_ranges (w w' : Z) :
  (getBreakpoint w = Mobile ↔ (w ≤ 480)%Z)
  ∧ (getBreakpoint w = Tablet ↔ (480 < w ≤ 768)%Z)
  ∧ (getBreakpoint w = Laptop ↔ (768 < w ≤ 1280)%Z)
  ∧ (getBreakpoint w = Desktop ↔ (1280 < w)%Z)
  ∧ ((w ≤ w')%Z → rank (getBreakpoint w) ≤ rank (getBreakpoint w')).
Proof.
  unfold getBreakpoint.
  destruct (Z.leb_spec w 480), (Z.leb_spec w 768), (Z.leb_spec w 1280),
    (Z.leb_spec w' 480), (Z.leb_spec w' 768), (Z.leb_spec w' 1280);
    repeat split; intros; simpl; try done; try lia.
Qed.

Lemma getBreakpoint_monotone_example :
  rank (getBreakpoint 480) ≤ rank (getBreakpoint 481).
Proof.
  apply (proj2 (proj2 (proj2 (proj2 (getBreakpoint_ranges 480 481))))). lia.
Defined.

Definition own_entry {T : Type} (bp : Breakpoint) (map : PickMap T) : option T :=
  match bp with
  | Mobile => mobile map
  | Tablet => tablet map
  | Laptop => laptop map
  | Desktop => Some (desktop map)
  end.

(** X2: [pick] returns the entry of the breakpoint itself when the map has
    one, and the desktop entry otherwise, whatever the entries of the
    breakpoints in between. *)
Theorem pick_own_or_desktop {T : Type} (bp : Breakpoint) (map : PickMap T) :
  pick bp map = default (desktop map) (own_entry bp map).
Proof.
  destruct bp, map as [[m|] [t|] [l|] d]; reflexivity.
Qed.

(** A mobile window with only the tablet and desktop entries given gets
    the desktop one. *)
Example pick_skips_tablet :
  pick Mobile {| mobile := None; tablet := Some 16; laptop := None;
                 desktop := 20 |} = 20.
Proof. reflexivity. Qed.

(** ** The timer *)

Lemma setPhase_timer (p : Phase) (s : State) :
  timer (setPhase p s)
  = if decide (phase s = p) then timer s
    else match p with
         | Study => STUDY_TIME
         | Distract => DISTRACT_TIME
         | _ => timer s
         end.
Proof. unfold setPhase. case_decide; [done|]. by destruct p. Qed.

(** Bounds on the timer cell. *)
Record timed (s : State) : Prop :=
  { timer_range : (0 ≤ timer s ≤ DISTRACT_TIME)%Z;
    timer_study : phase s = Study → (1 ≤ timer s ≤ STUDY_TIME)%Z;
    timer_distract : phase s = Distract → (1 ≤ timer s ≤ DISTRACT_TIME)%Z }.

Lemma timed_setPhase (p : Phase) (s : State) :
  timed s → (p = Study ∨ p = Distract → phase s ≠ p) → timed (setPhase p s).
Proof.
  intros [Hr Hs Hd] Hnew. unfold STUDY_TIME, DISTRACT_TIME in *.
  split; rewrite ?setPhase_phase, setPhase_timer;
    unfold STUDY_TIME, DISTRACT_TIME.
  - case_decide; [done|]. destruct p; lia.
  - intros ->. rewrite decide_False by (apply Hnew; auto). lia.
  - intros ->. rewrite decide_False by (apply Hnew; auto). lia.
Qed.

Lemma timed_same_clock (s s' : State) :
  timed s → timer s' = timer s →
  (phase s' = phase s ∨ (phase s' ≠ Study ∧ phase s' ≠ Distract)) →
  timed s'.
Proof.
  intros [Hr Hs Hd] Ht Hp. split; rewrite Ht; [done| |].
  - intros Hst. destruct Hp as [Hp|[? ?]]; [|done]. apply Hs. congruence.
  - intros Hdi. destruct Hp as [Hp|[? ?]]; [|done]. apply Hd. congruence.
Qed.

Lemma timed_tick (s : State) : timed s → timed (tick s).
Proof.
  intros Ht. unfold tick.
  destruct (bool_decide _) eqn:Hg; [done|]. cbn [orb].
  apply bool_decide_eq_false in Hg.
  destruct (Z.leb_spec (timer s) 0); [done|].
  destruct (Z.eqb_spec (timer s) 1).
  - apply timed_setPhase; [done|]. case_decide; intros [?|?]; congruence.
  - destruct Ht as [Hr Hs Hd].
    split; cbn [phase timer setTimer]; [lia|intros Hp; specialize (Hs Hp); lia|
      intros Hp; specialize (Hd Hp); lia].
Qed.

Lemma timed_dispatch (e : Event) (s : State) : timed s → timed (dispatch e s).
Proof.
  intros Ht. destruct e as [| | |w| |]; unfold dispatch.
  - destruct (phase s) eqn:Hp; try done.
    apply timed_setPhase; [done|]. rewrite Hp. by intros [?|?].
  - by apply timed_tick.
  - destruct (phase s) eqn:Hp; try done; unfold Btn;
      (apply timed_setPhase; [done|]); rewrite Hp; by intros [?|?].
  - destruct (phase s) eqn:Hp; try done.
    apply (timed_same_clock s); [done| |left];
      unfold toggleWord; by destruct (submitted s).
  - destruct (phase s) eqn:Hp; try done.
    unfold Btn. case_bool_decide; [done|].
    unfold submit. apply timed_setPhase; [|by intros [?|?]].
    apply (timed_same_clock s); [done|done|by left].
  - destruct (phase s) eqn:Hp; try done.
    destruct (scores s); [|done].
    apply (timed_same_clock (setPhase Intro s)).
    + apply timed_setPhase; [done|]. by intros [?|?].
    + done.
    + by left.
Qed.

Lemma reachable_timed (s : State) : reachable s → timed s.
Proof.
  intros [evs ->]. induction evs as [|e evs IH] using rev_ind.
  - split; cbn; unfold DISTRACT_TIME; [lia|done..].
  - rewrite run_snoc. by apply timed_dispatch.
Qed.

(** X3: in every reachable state the timer is between 0 and
    [DISTRACT_TIME], and while a countdown phase lasts it is at least 1 and
    at most the load of that phase: the guard [timer <= 0] of the countdown
    effect never holds there, so the countdown cannot stall. *)
Theorem timer_within_load (s : State) :
  reachable s →
  (0 ≤ timer s ≤ DISTRACT_TIME)%Z
  ∧ (phase s = Study → (1 ≤ timer s ≤ STUDY_TIME)%Z ∧ tick s ≠ s)
  ∧ (phase s = Distract → (1 ≤ timer s ≤ DISTRACT_TIME)%Z ∧ tick s ≠ s).
Proof.
  intros Hreach. destruct (reachable_timed s Hreach) as [Hr Hs Hd].
  assert (∀ s' : State, (1 ≤ timer s')%Z →
            phase s' = Study ∨ phase s' = Distract → tick s' ≠ s') as Hmoves.
  { intros s' Hpos Hp Heq. unfold tick in Heq.
    rewrite bool_decide_eq_false_2 in Heq
      by (destruct Hp as [->| ->]; by intros [? ?]).
    destruct (Z.leb_spec (timer s') 0); [lia|]. cbn [orb] in Heq.
    destruct (Z.eqb_spec (timer s') 1).
    - apply (f_equal phase) in Heq. rewrite setPhase_phase in Heq.
      destruct Hp as [Hp|Hp]; rewrite Hp in Heq;
        [rewrite decide_True in Heq by done|
         rewrite decide_False in Heq by done]; done.
    - apply (f_equal timer) in Heq. cbn in Heq. lia. }
  split; [done|]. split; intros Hp.
  - specialize (Hs Hp). split; [done|]. apply Hmoves; [lia|auto].
  - specialize (Hd Hp). split; [done|]. apply Hmoves; [lia|auto].
Qed.

Definition mid_study : State := run [BeginClick; Tick; Tick; Tick] initial_state.

Lemma timer_within_load_mid_study :
  (0 ≤ timer mid_study ≤ DISTRACT_TIME)%Z
  ∧ (1 ≤ timer mid_study ≤ STUDY_TIME)%Z ∧ tick mid_study ≠ mid_study.
Proof.
  destruct (timer_within_load mid_study (reachable_run _)) as (Hr & Hs & _).
  split; [exact Hr|]. apply Hs. vm_compute. reflexivity.
Defined.

(** X4: from every reachable study state, exactly [timer] ticks reach the
    distract phase with the timer reloaded, and no fewer; from every
    reachable distract state, exactly [timer] ticks reach the recall
    phase. *)
Theorem countdown_always_expires (s : State) :
  reachable s → phase s = Study ∨ phase s = Distract →
  let n := Z.to_nat (timer s) in
  (∀ k, k < n → phase (ticks k s) = phase s)
  ∧ phase (ticks n s) = (if decide (phase s = Study) then Distract else Recall)
  ∧ (phase s = Study → timer (ticks n s) = DISTRACT_TIME).
Proof.
  intros Hreach Hp n. destruct (reachable_timed s Hreach) as [Hr Hs Hd].
  assert (1 ≤ timer s)%Z as Hpos
    by (destruct Hp as [Hp|Hp]; [apply Hs in Hp|apply Hd in Hp]; lia).
  destruct (countdown_runs (pred n) s Hp) as [Hbefore Hexp]; [subst n; lia|].
  replace (S (pred n)) with n in * by (subst n; lia).
  split; [done|]. rewrite Hexp. split.
  - apply setPhase_phase.
  - intros Hst. rewrite setPhase_timer. cbn [phase setTimer].
    rewrite Hst. rewrite (decide_True (P := Study = Study)) by done.
    by rewrite decide_False.
Qed.

Lemma countdown_expires_mid_study :
  (∀ k, k < 37 → phase (ticks k mid_study) = Study)
  ∧ phase (ticks 37 mid_study) = Distract
  ∧ timer (ticks 37 mid_study) = 300%Z.
Proof.
  assert (phase mid_study = Study) as Hst by (vm_compute; reflexivity).
  destruct (countdown_always_expires mid_study (reachable_run _)
              (or_introl Hst)) as (Hb & He & Ht).
  split; [|split].
  - intros k Hk. rewrite <- Hst. apply Hb. exact Hk.
  - exact He.
  - exact (Ht Hst).
Defined.

(** ** The timer badge *)

(** Every timer value a reachable state can hold, run through a check. *)
Lemma clock_values (P : Z → Prop) :
  Forall P (seqZ 0 301) → ∀ s, reachable s → P (timer s).
Proof.
  intros HP s Hreach. destruct (reachable_timed s Hreach) as [Hr _ _].
  unfold DISTRACT_TIME in Hr.
  apply (proj1 (Forall_seqZ P 0 301) HP). lia.
Qed.

Ltac run_clock_values :=
  let l := eval vm_compute in (seqZ 0 301) in
  change (seqZ 0 301) with l;
  repeat (constructor; [vm_compute; try reflexivity|]); try constructor.

(** On every timer value the double division followed by [Math.floor]
    is the integer quotient that [fmt] is written with. *)
Lemma floor_quotient_exact (s : State) :
  reachable s →
  Math_floor (PrimFloat.div (JS.of_Z (timer s)) (JS.of_nat 60))
  = JS.of_Z (timer s `div` 60)%Z.
Proof.
  revert s.
  apply (clock_values
           (λ t, Math_floor (PrimFloat.div (JS.of_Z t) (JS.of_nat 60))
                 = JS.of_Z (t `div` 60)%Z)).
  run_clock_values.
Qed.

(** X5: in every reachable state the badge text is one minute digit, a
    colon and the seconds on exactly two digits, padded with a zero; the
    minutes are the floor of [timer / 60] as the doubles compute it. *)
Theorem fmt_timer_shape (s : State) :
  reachable s →
  let t := timer s in
  let sec := (t `rem` 60)%Z in
  Math_floor (PrimFloat.div (JS.of_Z t) (JS.of_nat 60)) = JS.of_Z (t `div` 60)%Z
  ∧ fmt t = pretty (t `div` 60)%Z +:+ ":"
            +:+ (if (sec <? 10)%Z then "0" +:+ pretty sec else pretty sec)
  ∧ String.length (fmt t) = 4.
Proof.
  intros Hreach t sec. split; [by apply floor_quotient_exact|].
  subst sec t. revert s Hreach.
  apply (clock_values
           (λ t, fmt t = pretty (t `div` 60)%Z +:+ ":"
                         +:+ (if (t `rem` 60 <? 10)%Z
                              then "0" +:+ pretty (t `rem` 60)%Z
                              else pretty (t `rem` 60)%Z)
                 ∧ String.length (fmt t) = 4)).
  run_clock_values; by split.
Qed.

Lemma fmt_timer_shape_mid_study :
  fmt (timer mid_study) = "0:37" ∧ String.length (fmt (timer mid_study)) = 4.
Proof.
  destruct (fmt_timer_shape mid_study (reachable_run _)) as (_ & Hfmt & Hlen).
  split; [|exact Hlen]. rewrite Hfmt. vm_compute. reflexivity.
Defined.

Lemma fmt_clock_NoDup : NoDup (fmt <$> seqZ 0 301).
Proof. apply (bool_decide_unpack _). by vm_compute. Qed.

(** X6: two reachable states whose badges read the same hold the same
    timer value: the text determines the remaining time. *)
Theorem fmt_timer_injective (s1 s2 : State) :
  reachable s1 → reachable s2 →
  fmt (timer s1) = fmt (timer s2) → timer s1 = timer s2.
Proof.
  intros H1 H2 Heq.
  destruct (reachable_timed s1 H1) as [Hr1 _ _].
  destruct (reachable_timed s2 H2) as [Hr2 _ _].
  unfold DISTRACT_TIME in *.
  assert (∀ t, (0 ≤ t ≤ 300)%Z →
            (fmt <$> seqZ 0 301) !! Z.to_nat t = Some (fmt t)) as Hlook.
  { intros t Ht. rewrite list_lookup_fmap, lookup_seqZ_lt by lia.
    simpl. f_equal. f_equal. lia. }
  pose proof (NoDup_lookup _ _ _ _ fmt_clock_NoDup
                (Hlook _ Hr1) (eq_ind_r (λ x, _ !! _ = Some x) (Hlook _ Hr2) Heq))
    as Hidx.
  lia.
Qed.

Definition mid_distract : State :=
  run (BeginClick :: SkipClick :: replicate 263 Tick) initial_state.

Lemma fmt_timer_injective_example :
  timer mid_study = timer mid_distract.
Proof.
  apply (fmt_timer_injective mid_study mid_distract).
  - apply reachable_run.
  - apply reachable_run.
  - vm_compute. reflexivity.
Defined.

(** ** The session *)

Definition next_phase (p : Phase) : Phase :=
  match p with
  | Intro => Study
  | Study => Distract
  | Distract => Recall
  | Recall => Results
  | Results => Intro
  end.

(** The events that can leave each phase. *)
Definition leaves (p : Phase) (e : Event) : Prop :=
  match p, e with
  | Intro, BeginClick
  | Study, Tick | Study, SkipClick
  | Distract, Tick | Distract, SkipClick
  | Recall, SubmitClick
  | Results, HomeClick => True
  | _, _ => False
  end.

Lemma dispatch_phase (e : Event) (s : State) :
  phase (dispatch e s) = phase s
  ∨ (phase (dispatch e s) = next_phase (phase s) ∧ leaves (phase s) e).
Proof.
  destruct e as [| | |w| |]; unfold dispatch.
  - destruct (phase s) eqn:Hp; auto. right. unfold Btn.
    by rewrite setPhase_phase.
  - destruct (tick_phase s) as [Heq|(_ & [[Hs Ht]|[Hs Ht]])]; [by left|..];
      right; rewrite Ht, Hs; done.
  - destruct (phase s) eqn:Hp; auto; right; unfold Btn;
      by rewrite setPhase_phase.
  - destruct (phase s) eqn:Hp; auto. left. unfold toggleWord.
    by destruct (submitted s).
  - destruct (phase s) eqn:Hp; auto. unfold Btn.
    case_bool_decide; [by left|]. right.
    by destruct (submit_unguarded s) as [-> _].
  - destruct (phase s) eqn:Hp; auto.
    destruct (scores s); [|by left]. right. unfold goHome.
    cbn [phase setScores setSubmitted setSelected]. by rewrite setPhase_phase.
Qed.

(** X7: whatever the state, an event keeps the phase or moves it one step
    along intro, study, distract, recall, results, intro; and each step is
    taken only by the events of its own phase: the begin button, a tick or
    a skip, the submit button, the home button. *)
Theorem phases_advance_in_order (e : Event) (s : State) :
  phase (dispatch e s) = phase s
  ∨ (phase (dispatch e s) = next_phase (phase s) ∧ leaves (phase s) e).
Proof. apply dispatch_phase. Qed.

(** What the results phase holds. *)
Definition scored (s : State) : Prop :=
  phase s = Results →
  scores s = Some (computeScores (selected s)) ∧ selected s ≠ ∅.

Lemma scored_dispatch (e : Event) (s : State) :
  consistent s → scored s → scored (dispatch e s).
Proof.
  intros Hinv Hsc.
  destruct (dispatch_phase e s) as [Hsame|[Hnext Hleave]].
  - destruct (decide (phase s = Results)) as [Hres|Hres].
    + (* nothing moves a results state but the home button *)
      assert (dispatch e s = s ∨ phase (dispatch e s) = Intro) as [->|Hi];
        [|done|].
      { destruct e as [| | |w| |]; unfold dispatch; rewrite ?Hres; auto.
        - left. apply tick_outside_countdown; by rewrite Hres.
        - destruct (scores s); [|by left]. right. unfold goHome.
          cbn [phase setScores setSubmitted setSelected].
          by rewrite setPhase_phase. }
      intros Hr. congruence.
    + intros Hr. congruence.
  - intros Hr. rewrite Hr in Hnext.
    destruct (phase s) eqn:Hp; try done.
    destruct e; try done. unfold dispatch. rewrite Hp. unfold Btn.
    case_bool_decide as Hempty.
    + unfold dispatch, Btn in Hr. rewrite Hp in Hr.
      rewrite bool_decide_eq_true_2 in Hr by done. congruence.
    + rewrite submit_scores. unfold submit.
      rewrite setPhase_selected. cbn [selected setSubmitted setScores].
      split; [done|]. intros Hsel. by rewrite Hsel, size_empty in Hempty.
Qed.

Lemma reachable_scored (s : State) : reachable s → scored s.
Proof.
  intros [evs ->]. induction evs as [|e evs IH] using rev_ind.
  - intros Hr. done.
  - rewrite run_snoc. apply scored_dispatch; [|done].
    apply reachable_consistent, reachable_run.
Qed.

(** X8: in every reachable state, [scores] is set exactly in the results
    phase and so is [submitted]; the stored scores are those of the
    selection the state holds, which is not empty; and before the recall
    phase the selection is empty. *)
Theorem session_cells_agree (s : State) :
  reachable s →
  (is_Some (scores s) ↔ phase s = Results)
  ∧ (submitted s = true ↔ phase s = Results)
  ∧ (phase s = Results →
     scores s = Some (computeScores (selected s)) ∧ selected s ≠ ∅)
  ∧ (phase s = Intro ∨ phase s = Study ∨ phase s = Distract →
     selected s = ∅).
Proof.
  intros Hreach. pose proof (reachable_scored s Hreach) as Hsc.
  destruct (reachable_consistent s Hreach) as [_ Hsub Hscores Hbefore Hempty].
  split; [|split; [|split]]; try done.
  - split; [|done]. intros Hsome.
    destruct (decide (phase s = Results)) as [|Hne]; [done|].
    destruct (Hbefore Hne) as [_ Hnone]. rewrite Hnone in Hsome.
    by destruct Hsome.
  - split; [|done]. intros Htrue.
    destruct (decide (phase s = Results)) as [|Hne]; [done|].
    destruct (Hbefore Hne) as [Hfalse _]. congruence.
Qed.

Lemma session_cells_agree_at_results :
  scores at_results = Some (computeScores (selected at_results))
  ∧ selected at_results ≠ ∅.
Proof.
  destruct (session_cells_agree at_results (reachable_run _))
    as (_ & _ & Hres & _).
  apply Hres. vm_compute. reflexivity.
Defined.

(** X9: in the recall phase a click on the submit button changes the state
    exactly when the selection is not empty; it then stores the scores of
    that selection, sets [submitted], enters the results phase and leaves
    the selection and the timer as they were. *)
Theorem submit_click_effect (s : State) :
  phase s = Recall →
  (dispatch SubmitClick s ≠ s ↔ selected s ≠ ∅)
  ∧ (selected s ≠ ∅ →
     phase (dispatch SubmitClick s) = Results
     ∧ scores (dispatch SubmitClick s) = Some (computeScores (selected s))
     ∧ submitted (dispatch SubmitClick s) = true
     ∧ selected (dispatch SubmitClick s) = selected s
     ∧ timer (dispatch SubmitClick s) = timer s).
Proof.
  intros Hp. unfold dispatch, Btn. rewrite Hp.
  destruct (decide (selected s = ∅)) as [Hempty|Hne].
  - rewrite bool_decide_eq_true_2 by (by rewrite Hempty, size_empty).
    split; [|done]. split; done.
  - rewrite bool_decide_eq_false_2
      by (intros Hz; by apply size_empty_iff, leibniz_equiv in Hz).
    destruct (submit_unguarded s) as (Hph & Hsub & _).
    split.
    + split; [done|]. intros _ Heq. rewrite Heq in Hph. congruence.
    + intros _. split; [done|]. split; [apply submit_scores|].
      split; [done|]. unfold submit.
      rewrite setPhase_selected, setPhase_timer.
      cbn [phase timer selected setSubmitted setScores].
      rewrite Hp. by rewrite decide_False.
Qed.

Definition one_selected : State :=
  run (enter_recall ++ [TileClick "Apple"])%list initial_state.

Lemma submit_click_effect_one_selected :
  dispatch SubmitClick one_selected ≠ one_selected
  ∧ phase (dispatch SubmitClick one_selected) = Results
  ∧ scores (dispatch SubmitClick one_selected)
    = Some (computeScores (selected one_selected)).
Proof.
  assert (phase one_selected = Recall) as Hp by (vm_compute; reflexivity).
  assert (selected one_selected ≠ ∅) as Hne.
  { intros H. apply (f_equal size) in H. vm_compute in H. discriminate. }
  destruct (submit_click_effect one_selected Hp) as [Hiff Heff].
  split; [by apply Hiff|].
  destruct (Heff Hne) as (H1 & H2 & _). by split.
Defined.

(** *** goHome *)

Lemma goHome_cells (s : State) :
  goHome s = setTimer (λ _, timer s) initial_state.
Proof.
  unfold goHome, setPhase. destruct s as [p t sel sub sc].
  cbn [phase]. case_decide as Hp; [by rewrite Hp|]. reflexivity.
Qed.

(** X10: from any state [goHome] restores every initial cell but the
    timer, which it leaves; and because the begin button reloads the
    timer, a session replayed after it goes through exactly the states of
    a session on a fresh page. *)
Theorem goHome_starts_afresh (s : State) (evs : list Event) :
  phase (goHome s) = Intro
  ∧ selected (goHome s) = ∅
  ∧ submitted (goHome s) = false
  ∧ scores (goHome s) = None
  ∧ timer (goHome s) = timer s
  ∧ run (BeginClick :: evs) (goHome s) = run (BeginClick :: evs) initial_state.
Proof.
  rewrite goHome_cells. by repeat split.
Qed.

(** *** toggleWord again *)

(** X11: on a selection within the cap, as every reachable one is,
    toggling the same word twice gives back the state: a removal is undone
    by the next click and so is an addition, and at the cap a click on an
    unselected word does nothing either time. *)
Theorem toggleWord_twice (w : string) (s : State) :
  size (selected s) ≤ length WORDS →
  toggleWord w (toggleWord w s) = s.
Proof.
  intros Hcap. unfold toggleWord.
  destruct s as [p t sel sub sc]. cbn [submitted selected] in *.
  destruct sub; [done|]. unfold setSelected.
  cbn [phase timer selected submitted scores].
  destruct (decide (w ∈ sel)) as [Hin|Hout].
  - rewrite decide_False
      by (rewrite elem_of_difference, elem_of_singleton; tauto).
    assert (size (sel ∖ {[w]}) < size sel) as Hlt.
    { apply subset_size. split.
      - apply subseteq_difference_l. done.
      - intros Hsub. specialize (Hsub w Hin).
        rewrite elem_of_difference, elem_of_singleton in Hsub. tauto. }
    rewrite decide_False by lia. f_equal.
    apply set_eq. intros x.
    rewrite elem_of_union, elem_of_difference, elem_of_singleton.
    destruct (decide (x = w)) as [->|]; tauto.
  - destruct (decide (length WORDS ≤ size sel)) as [Hfull|Hroom].
    + rewrite decide_False by done. by rewrite decide_True.
    + rewrite decide_True
        by (rewrite elem_of_union, elem_of_singleton; tauto).
      f_equal. apply set_eq. intros x.
      rewrite elem_of_difference, elem_of_union, elem_of_singleton.
      destruct (decide (x = w)) as [->|]; tauto.
Qed.

Lemma toggleWord_twice_at_cap :
  toggleWord "Hund" (toggleWord "Hund" at_cap) = at_cap.
Proof.
  apply (toggleWord_twice "Hund" at_cap). vm_compute. lia.
Defined.

(** X12: [toggleWord w] touches nothing but the membership of [w]: every
    other word stays in or out, and phase, timer, [submitted] and [scores]
    are unchanged.  After it [w] is selected exactly when, before
    submission, it was not selected and the cap left room, or, after
    submission, it was selected. *)
Theorem toggleWord_flips_only_its_word (w w' : string) (s : State) :
  w' ≠ w →
  (w' ∈ selected (toggleWord w s) ↔ w' ∈ selected s)
  ∧ phase (toggleWord w s) = phase s
  ∧ timer (toggleWord w s) = timer s
  ∧ submitted (toggleWord w s) = submitted s
  ∧ scores (toggleWord w s) = scores s
  ∧ (w ∈ selected (toggleWord w s) ↔
     if submitted s then w ∈ selected s
     else (w ∉ selected s) ∧ size (selected s) < length WORDS).
Proof.
  intros Hne. unfold toggleWord. destruct (submitted s) eqn:Hsub.
  - rewrite Hsub. repeat split; done.
  - cbn [phase timer selected submitted scores setSelected].
    rewrite Hsub.
    destruct (decide (w ∈ selected s)) as [Hin|Hout].
    + rewrite !elem_of_difference, !elem_of_singleton.
      repeat split; intros; intuition (try congruence; try lia).
    + destruct (decide (length WORDS ≤ size (selected s))) as [Hfull|Hroom].
      * repeat split; intros; intuition (try congruence; try lia).
      * rewrite !elem_of_union, !elem_of_singleton.
        repeat split; intros; intuition (try congruence; try lia).
Qed.

Lemma toggleWord_flips_only_its_word_example :
  ("Apple" ∈ selected (toggleWord "Hund" one_selected)
   ↔ "Apple" ∈ selected one_selected)
  ∧ phase (toggleWord "Hund" one_selected) = phase one_selected.
Proof.
  destruct (toggleWord_flips_only_its_word "Hund" "Apple" one_selected)
    as (Hm & Hp & _); [discriminate|].
  by split.
Defined.

(** ** The scorer again *)

Lemma selection_split (sel : gset string) :
  sel = sel ∩ target_texts ∪ sel ∖ target_texts.
Proof.
  apply set_eq. intros x.
  rewrite elem_of_union, elem_of_intersection, elem_of_difference.
  destruct (decide (x ∈ target_texts)); tauto.
Qed.

Lemma total_falsePos_sum (sel : gset string) :
  total (computeScores sel) + falsePosCount (computeScores sel) = size sel.
Proof.
  destruct (total_counts_recalled_targets_aux sel) as [_ ->].
  rewrite computeScores_falsePosCount.
  rewrite <- (size_union (sel ∩ target_texts) (sel ∖ target_texts)).
  - by rewrite <- selection_split.
  - intros x. rewrite elem_of_intersection, elem_of_difference. tauto.
Qed.

(** X13: every selected text is counted once, as a recalled target or as a
    false positive: [total + falsePosCount] is the size of the selection;
    and [falsePosCount] is 0 exactly when only target texts are selected. *)
Theorem total_plus_falsePos (sel : gset string) :
  total (computeScores sel) + falsePosCount (computeScores sel) = size sel
  ∧ (falsePosCount (computeScores sel) = 0 ↔ sel ⊆ target_texts).
Proof.
  split; [apply total_falsePos_sum|].
  rewrite computeScores_falsePosCount, size_empty_iff. split.
  - intros Hempty x Hx. destruct (decide (x ∈ target_texts)); [done|].
    exfalso. apply (not_elem_of_empty (C := gset string) x), Hempty.
    rewrite elem_of_difference. tauto.
  - intros Hsub. apply equiv_empty. intros x.
    rewrite elem_of_difference. intros [Hx Hout]. destruct Hout. by apply Hsub.
Qed.

(** X14: selecting more never lowers a count: on a larger selection
    [total] and [falsePosCount] are at least what they were. *)
Theorem scores_monotone (sel sel' : gset string) :
  sel ⊆ sel' →
  total (computeScores sel) ≤ total (computeScores sel')
  ∧ falsePosCount (computeScores sel) ≤ falsePosCount (computeScores sel').
Proof.
  intros Hsub.
  destruct (total_counts_recalled_targets_aux sel) as [_ ->].
  destruct (total_counts_recalled_targets_aux sel') as [_ ->].
  rewrite !computeScores_falsePosCount.
  split; apply subseteq_size; intros x.
  - rewrite !elem_of_intersection. specialize (Hsub x). tauto.
  - rewrite !elem_of_difference. specialize (Hsub x). tauto.
Qed.

Lemma scores_monotone_first_eight :
  total (computeScores first_eight) ≤ total (computeScores target_texts)
  ∧ falsePosCount (computeScores first_eight)
    ≤ falsePosCount (computeScores target_texts).
Proof.
  apply (scores_monotone first_eight target_texts).
  apply (bool_decide_unpack _). vm_compute. exact I.
Defined.

Lemma target_texts_size : size target_texts = 15.
Proof. unfold target_texts. by rewrite size_list_to_set by apply WORDS_NoDup. Qed.

Lemma total_full_iff (sel : gset string) :
  total (computeScores sel) = 15 ↔ target_texts ⊆ sel.
Proof.
  destruct (total_counts_recalled_targets_aux sel) as [_ ->]. split.
  - intros Hsize.
    assert (sel ∩ target_texts = target_texts) as Heq.
    { apply set_subseteq_size_eq.
      - intros x. rewrite elem_of_intersection. tauto.
      - rewrite Hsize, target_texts_size. done. }
    intros x Hx. rewrite <- Heq in Hx.
    rewrite elem_of_intersection in Hx. tauto.
  - intros Hsub. rewrite <- target_texts_size. f_equal.
    apply set_eq. intros x. rewrite elem_of_intersection.
    specialize (Hsub x). tauto.
Qed.

Lemma total_none_iff (sel : gset string) :
  total (computeScores sel) = 0 ↔ sel ∩ target_texts = ∅.
Proof.
  destruct (total_counts_recalled_targets_aux sel) as [_ ->].
  rewrite size_empty_iff. split; intros H; [by apply leibniz_equiv|by rewrite H].
Qed.

(** The doubles of two different percentages are different. *)
Ltac differ H v :=
  apply (f_equal (λ x, PrimFloat.eqb x (JS.of_Z v))) in H;
  vm_compute in H; discriminate H.

Lemma percent_15_full (k : nat) :
  k ≤ 15 → percent k 15 = JS.of_Z 100 → k = 15.
Proof.
  intros Hk H.
  do 15 (destruct k as [|k]; [differ H 100%Z|]).
  destruct k; [done|lia].
Qed.

Lemma percent_15_none (k : nat) :
  k ≤ 15 → percent k 15 = JS.of_Z 0 → k = 0.
Proof.
  intros Hk H. destruct k as [|k]; [done|].
  do 15 (destruct k as [|k]; [differ H 0%Z|]). lia.
Qed.

(** X15: the retention shown is 100 exactly when every target text is
    selected, and 0 exactly when none is: rounding never lifts a partial
    recall to 100 nor drops a single recalled word to 0. *)
Theorem retention_extremes (sel : gset string) :
  (audienceRet (computeScores sel) = JS.of_Z 100 ↔ target_texts ⊆ sel)
  ∧ (audienceRet (computeScores sel) = JS.of_Z 0 ↔ sel ∩ target_texts = ∅).
Proof.
  rewrite computeScores_audienceRet.
  pose proof (computeScores_total_le sel) as Hle.
  change (length WORDS) with 15 in *.
  rewrite <- total_full_iff, <- total_none_iff. split; split.
  - by apply percent_15_full.
  - intros ->. by vm_compute.
  - by apply percent_15_none.
  - intros ->. by vm_compute.
Qed.

Lemma WORDS_languages : Forall (λ w, lang w = "EN" ∨ lang w = "SV") WORDS.
Proof. apply (bool_decide_unpack _). by vm_compute. Qed.

(** X16: the two language groups account for every target: [total] is the
    number of recalled words of the EN group plus that of the SV group,
    the groups being those whose rates are shown. *)
Theorem total_is_sum_of_languages (sel : gset string) :
  let sc := computeScores sel in
  let en := filter (λ m, m_lang m = "EN") (matched sc) in
  let sv := filter (λ m, m_lang m = "SV") (matched sc) in
  total sc = length (filter (λ m, recalled m) en)
             + length (filter (λ m, recalled m) sv)
  ∧ length (matched sc) = length en + length sv.
Proof.
  intros sc en sv. subst en sv.
  change (matched sc) with (match_word sel <$> WORDS).
  change (total sc)
    with (length (filter (λ m, recalled m) (match_word sel <$> WORDS))).
  generalize WORDS_languages. generalize WORDS. intros ws Hlang.
  induction ws as [|w ws IH]; [done|].
  apply Forall_cons in Hlang as [Hw Hlang]. specialize (IH Hlang).
  destruct IH as [IH1 IH2].
  rewrite fmap_cons. set (mw := match_word sel w).
  assert (m_lang mw = lang w) as Hml by done. rewrite <- Hml in Hw.
  rewrite !filter_cons.
  destruct (decide (m_lang mw = "EN")) as [He|He];
    destruct (decide (m_lang mw = "SV")) as [Hs|Hs];
    try (rewrite He in Hs; discriminate Hs);
    try (destruct Hw; done);
    rewrite ?filter_cons; destruct (decide (recalled mw));
    cbn [length]; lia.
Qed.

(** X17: the forgetting curve keeps the six reference points in order,
    with their labels and retentions, and carries the observed retention
    on the second one only, the "5 min" point. *)
Theorem forgetting_marks_five_minutes (sel : gset string) :
  let sc := computeScores sel in
  f_label <$> forgetting sc = label <$> EBBINGHAUS
  ∧ f_retention <$> forgetting sc = retention <$> EBBINGHAUS
  ∧ audience <$> forgetting sc
    = [None; Some (audienceRet sc); None; None; None; None]
  ∧ f_label <$> forgetting sc !! 1 = Some "5 min".
Proof. intros sc. repeat split. Qed.

(** ** Tiles *)

(** The four tests of [getTileState], by cases. *)
Lemma getTileState_classifies (s : State) (item : WordItem) :
  let chosen := wi_word item ∈ selected s in
  getTileState s item
  = match submitted s, isTarget item with
    | false, _ => if decide chosen then Selected else Idle
    | true, true => if decide chosen then Correct else Miss
    | true, false => if decide chosen then FalsePos else Idle
    end.
Proof.
  intros chosen. subst chosen. unfold getTileState.
  destruct (submitted s), (isTarget item); cbn [negb andb];
    case_bool_decide; by rewrite ?decide_True, ?decide_False by done.
Qed.

Definition count_tiles (t : TileState) (s : State) (g : list WordItem) : nat :=
  length (filter (λ it, getTileState s it = t) g).

Definition decoy_texts : gset string := list_to_set (d_word <$> FALSE_POSITIVES).

Definition grid_texts : gset string := list_to_set (wi_word <$> grid_items).

Lemma grid_texts_split : grid_texts = target_texts ∪ decoy_texts.
Proof. apply (bool_decide_unpack _). by vm_compute. Qed.

Lemma decoys_apart : target_texts ## decoy_texts.
Proof. apply (bool_decide_unpack _). by vm_compute. Qed.

Lemma FALSE_POSITIVES_NoDup : NoDup (d_word <$> FALSE_POSITIVES).
Proof. apply (bool_decide_unpack _). by vm_compute. Qed.

Lemma filter_fmap_length {A B : Type} (f : A → B) (P : B → Prop)
    `{!∀ b, Decision (P b)} (l : list A) :
  length (filter P (f <$> l)) = length (filter (λ a, P (f a)) l).
Proof.
  induction l as [|a l IH]; [done|].
  rewrite fmap_cons, !filter_cons.
  destruct (decide (P (f a))); simpl; by rewrite IH.
Qed.

Lemma filter_none {A : Type} (P : A → Prop) `{!∀ a, Decision (P a)}
    (l : list A) :
  (∀ a, ¬ P a) → filter P l = [].
Proof.
  intros Hno. induction l as [|a l IH]; [done|].
  rewrite filter_cons. by destruct (decide (P a)); [destruct (Hno a)|].
Qed.

Lemma length_filter_not {A : Type} (P : A → Prop)
    `{!∀ a, Decision (P a)} `{!∀ a, Decision (¬ P a)} (l : list A) :
  length (filter (λ a, ¬ P a) l) = length l - length (filter P l).
Proof.
  induction l as [|a l IH]; [done|].
  rewrite !filter_cons. pose proof (length_filter P l).
  destruct (decide (P a)), (decide (¬ P a)); simpl; try tauto; lia.
Qed.

Lemma texts_count {A : Type} (f : A → string) (sel : gset string)
    (l : list A) :
  NoDup (f <$> l) →
  length (filter (λ a, f a ∈ sel) l) = size (sel ∩ list_to_set (f <$> l)).
Proof.
  induction l as [|a l IH]; intros Hnd.
  - simpl. by rewrite intersection_empty_r_L, size_empty.
  - rewrite fmap_cons in Hnd. apply NoDup_cons in Hnd as [Hx Hnd].
    rewrite filter_cons, fmap_cons, list_to_set_cons.
    destruct (decide (f a ∈ sel)) as [Hin|Hin].
    + assert (sel ∩ ({[f a]} ∪ list_to_set (f <$> l))
              = {[f a]} ∪ sel ∩ list_to_set (f <$> l)) as ->.
      { apply set_eq. intros y.
        rewrite !elem_of_intersection, !elem_of_union, elem_of_intersection,
          elem_of_singleton.
        intuition congruence. }
      rewrite size_union, size_singleton.
      * simpl. by rewrite IH.
      * apply disjoint_singleton_l.
        rewrite elem_of_intersection, elem_of_list_to_set. tauto.
    + assert (sel ∩ ({[f a]} ∪ list_to_set (f <$> l))
              = sel ∩ list_to_set (f <$> l)) as ->.
      { apply set_eq. intros y.
        rewrite !elem_of_intersection, !elem_of_union, elem_of_singleton.
        intuition congruence. }
      by apply IH.
Qed.

(** Counting tiles does not depend on the order of the grid. *)
Lemma count_tiles_grid (random : nat → float) (t : TileState) (s : State) :
  count_tiles t s (grid random)
  = length (filter (λ w, getTileState s (target_item w) = t) WORDS)
    + length (filter (λ d, getTileState s (decoy_item d) = t) FALSE_POSITIVES).
Proof.
  unfold count_tiles.
  assert (grid random ≡ₚ grid_items) as -> by apply shuffle_perm.
  unfold grid_items. by rewrite filter_app, length_app, !filter_fmap_length.
Qed.

Lemma count_targets (t : TileState) (s : State) (P : Word → Prop)
    `{!∀ w, Decision (P w)} :
  (∀ w, getTileState s (target_item w) = t ↔ P w) →
  length (filter (λ w, getTileState s (target_item w) = t) WORDS)
  = length (filter P WORDS).
Proof. intros Hiff. by rewrite (list_filter_iff _ P). Qed.

Lemma count_decoys (t : TileState) (s : State) (P : Decoy → Prop)
    `{!∀ d, Decision (P d)} :
  (∀ d, getTileState s (decoy_item d) = t ↔ P d) →
  length (filter (λ d, getTileState s (decoy_item d) = t) FALSE_POSITIVES)
  = length (filter P FALSE_POSITIVES).
Proof. intros Hiff. by rewrite (list_filter_iff _ P). Qed.

Lemma selected_decoys (sel : gset string) :
  length (filter (λ d, d_word d ∈ sel) FALSE_POSITIVES)
  = size (sel ∩ decoy_texts).
Proof.
  apply (texts_count d_word), FALSE_POSITIVES_NoDup.
Qed.

Ltac tile_cases s :=
  intros ?; rewrite getTileState_classifies; cbn [target_item decoy_item
    wi_word isTarget];
  destruct (submitted s); try done; case_decide; split; intros; try done;
  try tauto.

Lemma tiles_after_submission (random : nat → float) (s : State) :
  submitted s = true →
  count_tiles Correct s (grid random) = total (computeScores (selected s))
  ∧ count_tiles Miss s (grid random)
    = length WORDS - total (computeScores (selected s))
  ∧ count_tiles FalsePos s (grid random) = size (selected s ∩ decoy_texts)
  ∧ count_tiles Selected s (grid random) = 0.
Proof.
  intros Hsub. rewrite !count_tiles_grid.
  rewrite computeScores_total.
  split; [|split; [|split]].
  - rewrite (count_targets Correct s (λ w, word w ∈ selected s))
      by tile_cases s.
    rewrite (count_decoys Correct s (λ _, False)) by tile_cases s.
    rewrite (filter_none (λ _ : Decoy, False)) by tauto. simpl. lia.
  - rewrite (count_targets Miss s (λ w, word w ∉ selected s))
      by tile_cases s.
    rewrite (count_decoys Miss s (λ _, False)) by tile_cases s.
    rewrite (filter_none (λ _ : Decoy, False)) by tauto.
    rewrite (length_filter_not (λ w, word w ∈ selected s)). simpl. lia.
  - rewrite (count_targets FalsePos s (λ _, False)) by tile_cases s.
    rewrite (filter_none (λ _ : Word, False)) by tauto.
    rewrite (count_decoys FalsePos s (λ d, d_word d ∈ selected s))
      by tile_cases s.
    by rewrite selected_decoys.
  - rewrite (count_targets Selected s (λ _, False)) by tile_cases s.
    rewrite (count_decoys Selected s (λ _, False)) by tile_cases s.
    rewrite (filter_none (λ _ : Word, False)) by tauto.
    by rewrite (filter_none (λ _ : Decoy, False)) by tauto.
Qed.

(** X18: in every reachable results state, and for every order of the
    grid, the tiles agree with the stored scores: the tiles marked correct
    are [total] many, the missed ones [15 - total], no tile is shown as
    selected, and the tiles marked false positive are at most
    [falsePosCount] many, exactly that many when every selected text is on
    the grid. *)
Theorem results_tiles_match_scores (random : nat → float) (s : State) :
  reachable s → phase s = Results →
  ∃ sc, scores s = Some sc
    ∧ count_tiles Correct s (grid random) = total sc
    ∧ count_tiles Miss s (grid random) = length WORDS - total sc
    ∧ count_tiles Selected s (grid random) = 0
    ∧ count_tiles FalsePos s (grid random) ≤ falsePosCount sc
    ∧ (selected s ⊆ grid_texts →
       count_tiles FalsePos s (grid random) = falsePosCount sc).
Proof.
  intros Hreach Hres.
  destruct (reachable_scored s Hreach Hres) as [Hsc _].
  pose proof (results_submitted s (reachable_consistent s Hreach) Hres) as Hsub.
  destruct (tiles_after_submission random s Hsub) as (Hc & Hm & Hf & Hs).
  exists (computeScores (selected s)).
  rewrite computeScores_falsePosCount, Hf.
  split; [done|]. split; [done|]. split; [done|]. split; [done|]. split.
  - apply subseteq_size. intros x.
    rewrite elem_of_intersection, elem_of_difference.
    pose proof (decoys_apart x). tauto.
  - intros Hgrid. f_equal. apply set_eq. intros x.
    rewrite elem_of_intersection, elem_of_difference.
    pose proof (decoys_apart x). specialize (Hgrid x).
    rewrite grid_texts_split, elem_of_union in Hgrid. tauto.
Qed.

Definition mixed_results : State :=
  run (enter_recall
       ++ [TileClick "Apple"; TileClick "Hund"; TileClick "Forest";
           SubmitClick])%list initial_state.

Lemma results_tiles_match_scores_mixed :
  ∃ sc, scores mixed_results = Some sc
    ∧ count_tiles Correct mixed_results (grid alternating) = total sc
    ∧ count_tiles FalsePos mixed_results (grid alternating) = falsePosCount sc.
Proof.
  destruct (results_tiles_match_scores alternating mixed_results)
    as (sc & Hsc & Hc & _ & _ & _ & Hf).
  - apply reachable_run.
  - vm_compute. reflexivity.
  - exists sc. split; [exact Hsc|]. split; [exact Hc|]. apply Hf.
    apply (bool_decide_unpack _). vm_compute. exact I.
Defined.

(** X19: before submission, and for every order of the grid, the tiles
    shown as selected are the selected texts that are on the grid, so the
    counter [selected.size] equals the number of highlighted tiles
    whenever the selection was made on the grid; no tile is marked. *)
Theorem recall_tiles_match_selection (random : nat → float) (s : State) :
  submitted s = false →
  count_tiles Selected s (grid random) = size (selected s ∩ grid_texts)
  ∧ (selected s ⊆ grid_texts →
     count_tiles Selected s (grid random) = size (selected s))
  ∧ count_tiles Correct s (grid random) = 0
  ∧ count_tiles Miss s (grid random) = 0
  ∧ count_tiles FalsePos s (grid random) = 0.
Proof.
  intros Hsub.
  assert (∀ t, t ≠ Selected → t ≠ Idle → count_tiles t s (grid random) = 0)
    as Hunmarked.
  { intros t H1 H2. unfold count_tiles. rewrite filter_none; [done|].
    intros it. rewrite getTileState_classifies, Hsub.
    case_decide; congruence. }
  assert (count_tiles Selected s (grid random) = size (selected s ∩ grid_texts))
    as Hcount.
  { unfold count_tiles.
    assert (grid random ≡ₚ grid_items) as -> by apply shuffle_perm.
    rewrite (list_filter_iff _ (λ it, wi_word it ∈ selected s)).
    - apply (texts_count wi_word). apply (bool_decide_unpack _). by vm_compute.
    - intros it. rewrite getTileState_classifies, Hsub.
      case_decide; split; intros; done. }
  split; [done|]. split; [|by rewrite !Hunmarked].
  intros Hgrid. rewrite Hcount. f_equal. apply set_eq. intros x.
  rewrite elem_of_intersection. specialize (Hgrid x). tauto.
Qed.

Lemma recall_tiles_match_selection_at_cap :
  count_tiles Selected at_cap (grid alternating) = size (selected at_cap).
Proof.
  destruct (recall_tiles_match_selection alternating at_cap) as (_ & H & _).
  - vm_compute. reflexivity.
  - apply H. apply (bool_decide_unpack _). vm_compute. exact I.
Defined.

(** ** The grid again *)

(** X20: whatever the shuffle draws, the texts of the grid are pairwise
    distinct, target and decoy texts never colliding: the [key] of each
    tile is unique and a click names one tile. *)
Theorem grid_texts_distinct (random : nat → float) :
  NoDup (wi_word <$> grid random)
  ∧ target_texts ## decoy_texts
  ∧ ∀ it it', it ∈ grid random → it' ∈ grid random →
              wi_word it = wi_word it' → it = it'.
Proof.
  assert (NoDup (wi_word <$> grid random)) as Hnd.
  { assert (grid random ≡ₚ grid_items) as -> by apply shuffle_perm.
    apply (bool_decide_unpack _). by vm_compute. }
  split; [done|]. split; [apply decoys_apart|].
  intros it it' Hin Hin' Heq.
  apply list_elem_of_lookup in Hin as [i Hi].
  apply list_elem_of_lookup in Hin' as [j Hj].
  assert (i = j) as ->; [|congruence].
  apply (NoDup_lookup _ i j (wi_word it) Hnd).
  - by rewrite list_lookup_fmap, Hi.
  - by rewrite list_lookup_fmap, Hj, Heq.
Qed.

(** X21: [shuffle] of an array of fewer than 64 elements, under any
    draws, returns a permutation of it: the same length and the same
    elements with the same multiplicities; an array of fewer than two
    elements comes back unchanged. *)
Theorem shuffle_permutes {T : Type} (random : nat → float) (arr : list T) :
  length arr < 64 →
  shuffle random arr ≡ₚ arr
  ∧ length (shuffle random arr) = length arr
  ∧ (∀ x, x ∈ shuffle random arr ↔ x ∈ arr)
  ∧ (length arr < 2 → shuffle random arr = arr).
Proof.
  intros _. pose proof (shuffle_perm random arr) as Hperm.
  split; [done|]. split; [by rewrite Hperm|]. split.
  - intros x. by rewrite Hperm.
  - intros Hshort. unfold shuffle, ArrayTimSort. by rewrite decide_True.
Qed.

Lemma shuffle_permutes_three :
  shuffle alternating [1; 2; 3] ≡ₚ [1; 2; 3]
  ∧ length (shuffle alternating [1; 2; 3]) = 3.
Proof.
  destruct (shuffle_permutes alternating [1; 2; 3]) as (Hp & Hl & _).
  - cbn. lia.
  - split; [exact Hp|exact Hl].
Defined.
